(** * Live session page: message reconciliation and media reconstruction

    A shallow embedding of [src/app/live/page.tsx]: the variant classifiers,
    the transcript update performed by the two [setMessages] effects of
    [LivePage], the three memoised views of [MessageItem] (text, video,
    audio) and the timer-driven recorder of [VideoPlayer]. *)

From Stdlib Require Import ZArith.
From stdpp Require Import base decidable option list strings.

Local Open Scope string_scope.
Local Open Scope list_scope.
Local Open Scope nat_scope.

(** ** Data model *)

(** Modelled from the spec: the declarations of [@/vendor/multimodal-live-types]
    and of [Part] are not part of the page; the three message shapes, the
    [{mimeType, data}] media chunk, the text / inline-media part and the
    [id] carried by every message are taken from the data model of the
    specification.  An optional field is an [option]. *)
Record GenerativeContentBlob := {
  mimeType : string;
  data : string
}.

Record Part := {
  text : option string;
  inlineData : option GenerativeContentBlob
}.

Record Content := {
  role : string;
  parts : list Part
}.

(** [serverContent] is one of [{modelTurn}], [{turnComplete}], [{interrupted}];
    [SCModelTurn None] is the object whose [modelTurn] key holds [null]. *)
Inductive ServerContent :=
  | SCModelTurn (modelTurn : option (list Part))
  | SCTurnComplete (turnComplete : bool)
  | SCInterrupted.

Inductive Payload :=
  | realtimeInput (mediaChunks : list GenerativeContentBlob)
  | clientContent (turns : list Content) (turnComplete : bool)
  | serverContent (content : ServerContent).

Record Message := {
  id : string;
  payload : Payload
}.

(** [type MessageType = ... | null] *)
Definition MessageType := option Message.

#[global] Instance GenerativeContentBlob_eq_dec : EqDecision GenerativeContentBlob.
Proof. solve_decision. Defined.
#[global] Instance Part_eq_dec : EqDecision Part.
Proof. solve_decision. Defined.
#[global] Instance Content_eq_dec : EqDecision Content.
Proof. solve_decision. Defined.
#[global] Instance ServerContent_eq_dec : EqDecision ServerContent.
Proof. solve_decision. Defined.
#[global] Instance Payload_eq_dec : EqDecision Payload.
Proof. solve_decision. Defined.
#[global] Instance Message_eq_dec : EqDecision Message.
Proof. solve_decision. Defined.

(** ** Classifiers *)

Definition isClientMessage (message : MessageType) : bool :=
  match message with
  | Some {| payload := clientContent _ _ |} => true
  | _ => false
  end.

Definition isRealtimeInputMessage (message : MessageType) : bool :=
  match message with
  | Some {| payload := realtimeInput _ |} => true
  | _ => false
  end.

Definition isServerMessage (message : MessageType) : bool :=
  match message with
  | Some {| payload := serverContent _ |} => true
  | _ => false
  end.

Definition hasModelTurn (content : ServerContent) : bool :=
  match content with
  | SCModelTurn (Some _) => true
  | _ => false
  end.

(** JavaScript truthiness of a string: every string but the empty one. *)
Definition truthy (s : string) : bool := negb (bool_decide (s = "")).

(** [Array.prototype.join('')] over strings. *)
Definition join (l : list string) : string := foldr String.append "" l.

(** ** The transcript *)

Module Transcript.

(** [m?.id] *)
Definition opt_id (m : MessageType) : option string := id <$> m.

(** The updater both effects hand to [setMessages]. *)
Definition setMessages_updater (current : Message) (messages : list MessageType)
  : list MessageType :=
  if bool_decide
       (0 < length (filter (λ m, opt_id m = opt_id (Some current)) messages))
  then (λ m, if decide (opt_id m = opt_id (Some current))
             then Some current else m) <$> messages
  else messages ++ [Some current].

(** One run of either effect: [if (current) setMessages(updater)]. *)
Definition upsert (current : MessageType) (messages : list MessageType)
  : list MessageType :=
  match current with
  | Some c => setMessages_updater c messages
  | None => messages
  end.

(** The snapshots are applied one after the other, as they arrive. *)
Definition apply_all (inputs : list MessageType) (messages : list MessageType)
  : list MessageType :=
  foldl (λ t m, upsert m t) messages inputs.

(** The first entry of the transcript carrying the given id. *)
Fixpoint entry_for (i : string) (messages : list MessageType) : option Message :=
  match messages with
  | [] => None
  | m :: rest =>
      if decide (opt_id m = Some i) then m else entry_for i rest
  end.

(** An entry with the id of [c] is present. *)
Definition has_id (c : Message) (messages : list MessageType) : Prop :=
  ∃ k e, messages !! k = Some (Some e) ∧ id e = id c.

(** The ids carried by the snapshots handed in, null ones skipped. *)
Definition input_ids (inputs : list MessageType) : list string :=
  omap opt_id inputs.

(** The distinct ids of a list, each standing where it was first seen;
    [seen] holds the ids met so far. *)
Fixpoint first_seen (seen : list string) (ids : list string) : list string :=
  match ids with
  | [] => []
  | x :: rest =>
      if decide (x ∈ seen) then first_seen seen rest
      else x :: first_seen (seen ++ [x]) rest
  end.

(** Where an id occurs first. *)
Fixpoint first_index (x : string) (ids : list string) : option nat :=
  match ids with
  | [] => None
  | y :: rest => if decide (y = x) then Some 0 else S <$> first_index x rest
  end.

(** Every merge of two streams that keeps the order inside each of them. *)
Fixpoint interleavings {A} (l1 : list A) : list A → list (list A) :=
  fix go (l2 : list A) : list (list A) :=
    match l1, l2 with
    | [], _ => [l2]
    | _, [] => [l1]
    | x :: l1', y :: l2' =>
        ((x ::.) <$> interleavings l1' l2) ++ ((y ::.) <$> go l2')
    end.

End Transcript.

(** ** The three views of [MessageItem] *)

Module Views.

Inductive Placement := placement_start | placement_end.

(** The [Bubble] of [textComponent]; [tb_loading] is the [loading] prop
    (absent, hence off, on the user's side), [tb_content] the string handed
    to [GPTVis]. *)
Record TextBubble := {
  tb_key : string;
  tb_placement : Placement;
  tb_loading : bool;
  tb_content : string
}.

Definition part_text (p : Part) : string := default "" (text p).

Definition textComponent (message : MessageType) : option TextBubble :=
  match message with
  | Some {| id := i; payload := clientContent turns _ |} =>
      (* turns?.[0]?.parts.map((p) => p.text).join('') *)
      match (λ turn, join (part_text <$> parts turn)) <$> head turns with
      | Some content =>
          if truthy content
          then Some {| tb_key := i; tb_placement := placement_end;
                       tb_loading := false; tb_content := content |}
          else None
      | None => None
      end
  | Some {| id := i; payload := serverContent (SCModelTurn (Some ps)) |} =>
      let content := join (part_text <$> ps) in
      let loading := bool_decide (length ps = 0) in
      if loading || truthy content
      then Some {| tb_key := i; tb_placement := placement_start;
                   tb_loading := loading; tb_content := content |}
      else None
  | _ => None
  end.

(** The text fields of the parts, one after the other, as the specification
    words it; a part without text adds nothing. *)
Fixpoint texts_in_order (ps : list Part) : string :=
  match ps with
  | [] => ""
  | p :: rest =>
      match text p with
      | Some s => s +:+ texts_in_order rest
      | None => texts_in_order rest
      end
  end.

(** What [textComponent] shows, read as the result of text extraction:
    nothing, the loading indicator, or a string. *)
Inductive Extracted := NoText | Pending | Text (s : string).

Definition extractText (message : MessageType) : Extracted :=
  match textComponent message with
  | None => NoText
  | Some b => if tb_loading b then Pending else Text (tb_content b)
  end.

(** The [Bubble] of [videoComponent]: the [images] handed to [VideoPlayer]. *)
Record VideoBubble := {
  vb_key : string;
  vb_placement : Placement;
  vb_images : list string
}.

Definition is_jpeg (c : GenerativeContentBlob) : Prop :=
  mimeType c = "image/jpeg" ∧ data c ≠ "".

#[global] Instance is_jpeg_dec c : Decision (is_jpeg c).
Proof. unfold is_jpeg. apply _. Defined.

Definition bubble_placement (message : MessageType) : Placement :=
  if isClientMessage message then placement_end else placement_start.

Definition message_key (prefix : string) (message : MessageType) : string :=
  prefix +:+ default "undefined" (id <$> message).

Definition videoComponent (message : MessageType) : option VideoBubble :=
  let base64s : list string :=
    match message with
    | Some {| payload := realtimeInput mediaChunks |} =>
        (λ c, "data:image/jpeg;base64, " +:+ data c) <$> filter is_jpeg mediaChunks
    | _ => []
    end in
  if bool_decide (length base64s ≠ 0)
  then Some {| vb_key := message_key "video-" message;
               vb_placement := bubble_placement message;
               vb_images := base64s |}
  else None.

(** *** Audio *)

(** Modelled from the spec: decoding of a base64 payload to raw bytes, which
    [base64sToArrayBuffer] of [@/vendor/lib/utils] (outside the page) applies
    to each chunk.  Standard alphabet; padding carries no bits. *)
Definition sextet (c : Ascii.ascii) : option Z :=
  let n := Z.of_nat (Ascii.nat_of_ascii c) in
  if (65 <=? n)%Z && (n <=? 90)%Z then Some (n - 65)%Z
  else if (97 <=? n)%Z && (n <=? 122)%Z then Some (n - 71)%Z
  else if (48 <=? n)%Z && (n <=? 57)%Z then Some (n + 4)%Z
  else if (n =? 43)%Z then Some 62%Z
  else if (n =? 47)%Z then Some 63%Z
  else None.

Fixpoint sextets (s : string) : list Z :=
  match s with
  | EmptyString => []
  | String c rest =>
      match sextet c with
      | Some v => v :: sextets rest
      | None => sextets rest
      end
  end.

Definition octet (n : Z) (shift : Z) : Z := Z.land (Z.shiftr n shift) 255.

Fixpoint octets (l : list Z) : list Z :=
  match l with
  | a :: b :: c :: d :: rest =>
      let n := Z.lor (Z.shiftl a 18)
                 (Z.lor (Z.shiftl b 12) (Z.lor (Z.shiftl c 6) d)) in
      octet n 16 :: octet n 8 :: octet n 0 :: octets rest
  | [a; b; c] =>
      let n := Z.lor (Z.shiftl a 18) (Z.lor (Z.shiftl b 12) (Z.shiftl c 6)) in
      [octet n 16; octet n 8]
  | [a; b] =>
      let n := Z.lor (Z.shiftl a 18) (Z.shiftl b 12) in
      [octet n 16]
  | _ => []
  end.

Definition base64Decode (s : string) : list Z := octets (sextets s).

(** Modelled from the spec: [base64sToArrayBuffer] of [@/vendor/lib/utils]
    decodes each payload and concatenates the byte sequences in array order. *)
Definition base64sToArrayBuffer (base64s : list string) : list Z :=
  concat (base64Decode <$> base64s).

(** Modelled from the spec: the artifact of [pcmBufferToBlob], a
    single-channel, 16-bit raw-audio container around the bytes, carrying the
    sample rate it is given. *)
Record Blob := {
  sampleRate : Z;
  numChannels : Z;
  bitsPerSample : Z;
  pcm : list Z
}.

(** Modelled from the spec: [pcmBufferToBlob] of [@/vendor/lib/utils]. *)
Definition pcmBufferToBlob (buffer : list Z) (rate : Z) : Blob :=
  {| sampleRate := rate; numChannels := 1; bitsPerSample := 16; pcm := buffer |}.

Record AudioBubble := {
  ab_key : string;
  ab_placement : Placement;
  ab_blob : Blob
}.

Definition is_pcm16k (c : GenerativeContentBlob) : Prop :=
  mimeType c = "audio/pcm;rate=16000" ∧ data c ≠ "".

#[global] Instance is_pcm16k_dec c : Decision (is_pcm16k c).
Proof. unfold is_pcm16k. apply _. Defined.

(** [p.inlineData?.mimeType == "audio/pcm;rate=24000" && p.inlineData?.data] *)
Definition is_pcm24k (p : Part) : Prop :=
  match inlineData p with
  | Some blob => mimeType blob = "audio/pcm;rate=24000" ∧ data blob ≠ ""
  | None => False
  end.

#[global] Instance is_pcm24k_dec p : Decision (is_pcm24k p).
Proof. unfold is_pcm24k. destruct (inlineData p); apply _. Defined.

Definition audioComponent (message : MessageType) : option AudioBubble :=
  let base64s : list string := [] in
  let rate : Z := 2400%Z in
  let '(base64s, rate) :=
    match message with
    | Some {| payload := realtimeInput mediaChunks |} =>
        (data <$> filter is_pcm16k mediaChunks, 1600%Z)
    | _ => (base64s, rate)
    end in
  let base64s :=
    match message with
    | Some {| payload := serverContent (SCModelTurn (Some ps)) |} =>
        (λ p, default "" (data <$> inlineData p)) <$> filter is_pcm24k ps
    | _ => base64s
    end in
  if bool_decide (length base64s ≠ 0)
  then Some {| ab_key := message_key "audio-" message;
               ab_placement := bubble_placement message;
               ab_blob := pcmBufferToBlob (base64sToArrayBuffer base64s) rate |}
  else None.

End Views.

(** ** [VideoPlayer]: the timer-driven recorder *)

Module Video.

(** A [MediaRecorder] as the effect drives it: started, [stop()] called with
    the stop event still queued, stop event delivered. *)
Inductive RecorderState := rec_recording | rec_stop_queued | rec_stopped.

#[global] Instance RecorderState_eq_dec : EqDecision RecorderState.
Proof. solve_decision. Defined.

(** What one run of the effect body allocates and closes over: the recorder,
    the interval timer, the cursor and the [Image] whose [src] the timer
    assigns.  [shown] logs the assignments to [img.src], oldest first
    ([None] is [undefined], read past the end of [images]). *)
Record Pipeline := {
  images : list string;
  interval : Z;
  frameRate : Z;
  recorder : RecorderState;
  timer : bool;
  currentImageIndex : nat;
  shown : list (option string)
}.

(** The component instance: its two refs and its two state cells, and every
    pipeline its effect has started so far.  A recorder is named by the
    position of its pipeline, the clip by the recorder that produced it. *)
Record VideoPlayer := {
  canvasRef : bool;
  recorderRef : option nat;
  video : option nat;
  poster : option string;
  pipelines : list Pipeline
}.

(** The instance once rendered: the canvas is in the document, nothing else
    is set. *)
Definition mounted : VideoPlayer :=
  {| canvasRef := true; recorderRef := None; video := None; poster := None;
     pipelines := [] |}.

Inductive Event :=
  | Effect (imgs : list string) (ival rate : Z)
  | Tick (k : nat)
  | OnStop (k : nat).

(** The body of [useEffect]. *)
Definition useEffect (imgs : list string) (ival rate : Z) (s : VideoPlayer)
  : VideoPlayer :=
  if canvasRef s && bool_decide (0 < length imgs)
     && negb (bool_decide (is_Some (recorderRef s)))
  then {| canvasRef := canvasRef s;
          recorderRef := Some (length (pipelines s));
          video := video s;
          poster := imgs !! 0;
          pipelines := pipelines s ++
            [ {| images := imgs; interval := ival; frameRate := rate;
                 recorder := rec_recording; timer := true;
                 currentImageIndex := 0; shown := [] |} ] |}
  else s.

(** The callback handed to [setInterval]. *)
Definition interval_callback (p : Pipeline) : Pipeline :=
  let at_end := bool_decide (length (images p) ≤ currentImageIndex p)%nat in
  {| images := images p; interval := interval p; frameRate := frameRate p;
     recorder := if at_end then rec_stop_queued else recorder p;
     timer := if at_end then false else timer p;
     currentImageIndex := S (currentImageIndex p);
     shown := shown p ++ [images p !! currentImageIndex p] |}.

Definition with_pipelines (s : VideoPlayer) (ps : list Pipeline) : VideoPlayer :=
  {| canvasRef := canvasRef s; recorderRef := recorderRef s;
     video := video s; poster := poster s; pipelines := ps |}.

(** A timer fires only while it is registered. *)
Definition tick (k : nat) (s : VideoPlayer) : VideoPlayer :=
  match pipelines s !! k with
  | Some p =>
      if timer p
      then with_pipelines s (<[k := interval_callback p]> (pipelines s))
      else s
  | None => s
  end.

(** [recorder.onstop]; the event is delivered once, after [stop()]. *)
Definition onstop (k : nat) (s : VideoPlayer) : VideoPlayer :=
  match pipelines s !! k with
  | Some p =>
      if decide (recorder p = rec_stop_queued)
      then {| canvasRef := canvasRef s;
              recorderRef := None;
              video := Some k;
              poster := poster s;
              pipelines :=
                <[k := {| images := images p; interval := interval p;
                          frameRate := frameRate p; recorder := rec_stopped;
                          timer := timer p;
                          currentImageIndex := currentImageIndex p;
                          shown := shown p |}]> (pipelines s) |}
      else s
  | None => s
  end.

Definition step (s : VideoPlayer) (e : Event) : VideoPlayer :=
  match e with
  | Effect imgs ival rate => useEffect imgs ival rate s
  | Tick k => tick k s
  | OnStop k => onstop k s
  end.

Definition run (events : list Event) (s : VideoPlayer) : VideoPlayer :=
  foldl step s events.

(** Every state on the way, the first one included. *)
Fixpoint trace (events : list Event) (s : VideoPlayer) : list VideoPlayer :=
  match events with
  | [] => [s]
  | e :: rest => s :: trace rest (step s e)
  end.

(** A pipeline is live while its timer is registered or its recorder has
    not delivered its stop event. *)
Definition live (p : Pipeline) : bool :=
  timer p || negb (bool_decide (recorder p = rec_stopped)).

Definition live_count (s : VideoPlayer) : nat :=
  length (filter (λ p, live p = true) (pipelines s)).

Definition timers (s : VideoPlayer) : nat :=
  length (filter (λ p, timer p = true) (pipelines s)).

Definition sessions (s : VideoPlayer) : nat :=
  length (filter (λ p, recorder p ≠ rec_stopped) (pipelines s)).

(** The ref names the one pipeline that is under way, the last one started:
    its timer runs and its recorder records, or its timer is cleared and
    the stop event of its recorder is awaited.  All the others are over. *)
Definition under_way (p : Pipeline) : Prop :=
  (timer p = true ∧ recorder p = rec_recording)
  ∨ (timer p = false ∧ recorder p = rec_stop_queued).

Definition single_pipeline (s : VideoPlayer) : Prop :=
  match recorderRef s with
  | None => Forall (λ p, live p = false) (pipelines s)
  | Some k =>
      ∃ before p,
        pipelines s = before ++ [p] ∧ k = length before
        ∧ Forall (λ p, live p = false) before ∧ under_way p
  end.

(** Modelled from the spec: the five named states of the pipeline, read off
    the component: nothing started; timer running with frames left; timer
    running with the cursor at the end; recorder stopped and its clip
    awaited; clip delivered. *)
Inductive Phase := Idle | Encoding | Draining | Finalizing | Complete.

#[global] Instance Phase_eq_dec : EqDecision Phase.
Proof. solve_decision. Defined.

Definition phase (s : VideoPlayer) : Phase :=
  match recorderRef s with
  | None => match video s with Some _ => Complete | None => Idle end
  | Some k =>
      match pipelines s !! k with
      | Some p =>
          if timer p
          then if bool_decide (currentImageIndex p < length (images p))
               then Encoding else Draining
          else Finalizing
      | None => Idle
      end
  end.

(** [video || poster]: the [video] element is rendered.  Both are strings or
    [null]; the object URL of a clip is never the empty string, the poster,
    the first of the images handed in, may be. *)
Definition renders (s : VideoPlayer) : bool :=
  bool_decide (is_Some (video s)) || from_option truthy false (poster s).

End Video.

(** ** Sample messages *)

Module Samples.

Definition text_part (s : string) : Part :=
  {| text := Some s; inlineData := None |}.

Definition user_says (i s : string) : Message :=
  {| id := i;
     payload := clientContent [ {| role := "user"; parts := [text_part s] |} ] true |}.

Definition model_says (i : string) (ps : list Part) : Message :=
  {| id := i; payload := serverContent (SCModelTurn (Some ps)) |}.

Definition frames4 : list string :=
  [ "data:image/jpeg;base64, AAAA"; "data:image/jpeg;base64, AAAB";
    "data:image/jpeg;base64, AAAC"; "data:image/jpeg;base64, AAAD" ].

Definition msgA1 : Message := user_says "id1" "hel".
Definition msgA2 : Message := user_says "id1" "hello".
Definition msgB1 : Message := model_says "id2" [text_part "hi"].

Definition pcm_chunk (d : string) : GenerativeContentBlob :=
  {| mimeType := "audio/pcm;rate=16000"; data := d |}.

(** Three audio chunks of 10, 20 and 5 bytes. *)
Definition chunk10 : string := "MDEyMzQ1Njc4OQ==".
Definition chunk20 : string := "MDEyMzQ1Njc4OWFiY2RlZmdoaWo=".
Definition chunk5 : string := "aGVsbG8=".

Definition audio_input : Message :=
  {| id := "id3";
     payload := realtimeInput [pcm_chunk chunk10; pcm_chunk chunk20; pcm_chunk chunk5] |}.

Definition model_audio : Message :=
  model_says "id4"
    [ {| text := None;
         inlineData := Some {| mimeType := "audio/pcm;rate=24000"; data := chunk5 |} |} ].

End Samples.

Import Transcript Views Video.

(** ** [LivePage]: the two streams and the frame requests *)

Module Session.

(** The last snapshot of a run that carries the given id. *)
Fixpoint last_with_id (i : string) (inputs : list MessageType) : option Message :=
  match inputs with
  | [] => None
  | m :: rest =>
      match last_with_id i rest with
      | Some c => Some c
      | None => if decide (opt_id m = Some i) then m else None
      end
  end.

(** The [messages] state of the page and the updaters handed to
    [requestAnimationFrame] that have not run yet, oldest first: the effect
    on [currentBotMessage] defers its [setMessages], the effect on
    [currentUserMessage] calls it at once. *)
Record LivePage := {
  messages : list MessageType;
  frameRequests : list Message
}.

Definition initial : LivePage := {| messages := []; frameRequests := [] |}.

Inductive Arrival :=
  | BotMessage (currentBotMessage : MessageType)
  | UserMessage (currentUserMessage : MessageType)
  | AnimationFrame.

Definition step (s : LivePage) (a : Arrival) : LivePage :=
  match a with
  | BotMessage (Some current) =>
      {| messages := messages s;
         frameRequests := frameRequests s ++ [current] |}
  | BotMessage None => s
  | UserMessage current =>
      {| messages := upsert current (messages s);
         frameRequests := frameRequests s |}
  | AnimationFrame =>
      {| messages := apply_all (Some <$> frameRequests s) (messages s);
         frameRequests := [] |}
  end.

Definition run (arrivals : list Arrival) (s : LivePage) : LivePage :=
  foldl step s arrivals.

(** The snapshots in the order the connection delivered them. *)
Fixpoint delivered (arrivals : list Arrival) : list MessageType :=
  match arrivals with
  | [] => []
  | BotMessage m :: rest => m :: delivered rest
  | UserMessage m :: rest => m :: delivered rest
  | AnimationFrame :: rest => delivered rest
  end.

End Session.

(** ** The tool checkboxes *)

Module Tools.

Record ToolsState := {
  codeExecution : bool;
  functionCalling : bool;
  automaticFunctionResponse : bool;
  grounding : bool
}.

Inductive Checkbox :=
  | CodeExecution | FunctionCalling | AutomaticFunctionResponse | Grounding.

#[global] Instance Checkbox_eq_dec : EqDecision Checkbox.
Proof. solve_decision. Defined.

(** [onChange] of a checkbox: [if (tools) setTools({...tools, field: checked})];
    the stored state may be [undefined]. *)
Definition onChange (box : Checkbox) (value : bool) (tools : option ToolsState)
  : option ToolsState :=
  match tools with
  | Some t =>
      Some match box with
           | CodeExecution =>
               {| codeExecution := value;
                  functionCalling := functionCalling t;
                  automaticFunctionResponse := automaticFunctionResponse t;
                  grounding := grounding t |}
           | FunctionCalling =>
               {| codeExecution := codeExecution t;
                  functionCalling := value;
                  automaticFunctionResponse := automaticFunctionResponse t;
                  grounding := grounding t |}
           | AutomaticFunctionResponse =>
               {| codeExecution := codeExecution t;
                  functionCalling := functionCalling t;
                  automaticFunctionResponse := value;
                  grounding := grounding t |}
           | Grounding =>
               {| codeExecution := codeExecution t;
                  functionCalling := functionCalling t;
                  automaticFunctionResponse := automaticFunctionResponse t;
                  grounding := value |}
           end
  | None => None
  end.

(** The [checked] prop of a checkbox: [tools?.field]. *)
Definition checked (box : Checkbox) (tools : option ToolsState) : option bool :=
  match box with
  | CodeExecution => codeExecution <$> tools
  | FunctionCalling => functionCalling <$> tools
  | AutomaticFunctionResponse => automaticFunctionResponse <$> tools
  | Grounding => grounding <$> tools
  end.

(** The stored state the page starts from. *)
Definition defaultValue : ToolsState :=
  {| codeExecution := false; functionCalling := false;
     automaticFunctionResponse := false; grounding := false |}.

End Tools.

(** ** Pacing of a clip *)

Module Pacing.

(** The cursor of a pipeline and the frames it has shown: the frames are those
    before the cursor, in order; the cursor is within the frames while the
    timer is registered and one past the end once it is cleared. *)
Definition paced (p : Pipeline) : Prop :=
  images p ≠ []
  ∧ shown p = (images p !!.) <$> seq 0 (currentImageIndex p)
  ∧ (timer p = true → currentImageIndex p ≤ length (images p))
  ∧ (timer p = false → currentImageIndex p = S (length (images p))).

(** What the player displays follows the pipelines it has started: the
    poster is the first frame of the last one started, and the clip, when
    there is one, is that of a recorder whose stop event was delivered. *)
Definition displayed (s : VideoPlayer) : Prop :=
  poster s = last (images <$> pipelines s) ≫= head
  ∧ (∀ k, video s = Some k → recorder <$> pipelines s !! k = Some rec_stopped)
  ∧ Forall (λ p, images p ≠ []) (pipelines s).

End Pacing.

(** ** The video bubble of one [MessageItem] *)

Module Slot.

(** The place of the video bubble in the [MessageItem] of one message id:
    the [VideoPlayer] that is in the tree, if any, and those that were
    removed from it.  The effect of [VideoPlayer] returns no cleanup, so the
    timer and the recorder of a removed player go on. *)
Record VideoSlot := {
  inTree : option VideoPlayer;
  removed : list VideoPlayer
}.

Definition empty : VideoSlot := {| inTree := None; removed := [] |}.

Inductive Where := InTree | Removed (j : nat).

Inductive SlotEvent :=
  | Render (message : MessageType)
  | TimerFires (w : Where) (k : nat)
  | StopEvent (w : Where) (k : nat).

(** [MessageItem] renders a snapshot and [videoComponent] is recomputed.
    With a bubble, the player in the tree is handed the new [images] and its
    effect runs, a player being mounted first when there is none; without a
    bubble, the player in the tree is removed. *)
Definition render (message : MessageType) (slot : VideoSlot) : VideoSlot :=
  match videoComponent message with
  | Some b =>
      {| inTree := Some (useEffect (vb_images b) 2000 10
                           (default mounted (inTree slot)));
         removed := removed slot |}
  | None =>
      match inTree slot with
      | Some player => {| inTree := None; removed := removed slot ++ [player] |}
      | None => slot
      end
  end.

Definition at_player (w : Where) (f : VideoPlayer → VideoPlayer)
    (slot : VideoSlot) : VideoSlot :=
  match w with
  | InTree => {| inTree := f <$> inTree slot; removed := removed slot |}
  | Removed j => {| inTree := inTree slot; removed := alter f j (removed slot) |}
  end.

Definition step (slot : VideoSlot) (ev : SlotEvent) : VideoSlot :=
  match ev with
  | Render message => render message slot
  | TimerFires w k => at_player w (tick k) slot
  | StopEvent w k => at_player w (onstop k) slot
  end.

Definition run (events : list SlotEvent) (slot : VideoSlot) : VideoSlot :=
  foldl step slot events.

Definition players (slot : VideoSlot) : list VideoPlayer :=
  option_list (inTree slot) ++ removed slot.

(** Pipelines under way, registered timers and open recorder sessions of the
    message id, over all its players. *)
Definition live_total (slot : VideoSlot) : nat :=
  sum_list_with live_count (players slot).

Definition timers_total (slot : VideoSlot) : nat :=
  sum_list_with timers (players slot).

Definition sessions_total (slot : VideoSlot) : nat :=
  sum_list_with sessions (players slot).

(** Two snapshots of one realtime input: with two frames, and with audio
    only. *)
Definition framed : Message :=
  {| id := "id5";
     payload := realtimeInput
       [ {| mimeType := "image/jpeg"; data := "AAAA" |};
         {| mimeType := "image/jpeg"; data := "AAAB" |} ] |}.

Definition frameless : Message :=
  {| id := "id5";
     payload := realtimeInput
       [ {| mimeType := "audio/pcm;rate=16000"; data := "aGVsbG8=" |} ] |}.

End Slot.

(** * Properties *)

(** ** The transcript *)

Section transcript.
Implicit Types (t messages : list MessageType) (c e : Message) (i : string).

Lemma has_id_filter c t :
  has_id c t ↔ 0 < length (filter (λ m, opt_id m = opt_id (Some c)) t).
Proof.
  split.
  - intros (k & e & Hk & He).
    assert (Some e ∈ filter (λ m, opt_id m = opt_id (Some c)) t) as Hin.
    { apply list_elem_of_filter. split; [simpl; by f_equal|].
      by eapply list_elem_of_lookup_2. }
    destruct (filter _ t); [by apply elem_of_nil in Hin | simpl; lia].
  - intros Hlen.
    destruct (filter _ t) as [|m l] eqn:Hf; [simpl in Hlen; lia|].
    assert (m ∈ filter (λ m, opt_id m = opt_id (Some c)) t) as Hin
      by (rewrite Hf; left).
    apply list_elem_of_filter in Hin as [Hid Hin].
    destruct m as [e|]; [|done].
    apply list_elem_of_lookup_1 in Hin as [k Hk].
    exists k, e. split; [done|]. by injection Hid.
Qed.

Lemma updater_present c t :
  has_id c t →
  setMessages_updater c t
  = (λ m, if decide (opt_id m = Some (id c)) then Some c else m) <$> t.
Proof.
  intros H%has_id_filter. unfold setMessages_updater.
  by rewrite bool_decide_eq_true_2.
Qed.

Lemma updater_absent c t :
  ¬ has_id c t → setMessages_updater c t = t ++ [Some c].
Proof.
  intros H. unfold setMessages_updater.
  rewrite bool_decide_eq_false_2; [done|]. by rewrite <-has_id_filter.
Qed.

Lemma has_id_cases c t : has_id c t ∨ ¬ has_id c t.
Proof.
  destruct (decide (0 < length (filter (λ m, opt_id m = opt_id (Some c)) t)));
    [left | right]; by rewrite has_id_filter.
Qed.

(** The ids of the entries, position by position, before and after. *)
Lemma upsert_ids_prefix msg t :
  (opt_id <$> t) `prefix_of` (opt_id <$> upsert msg t).
Proof.
  destruct msg as [c|]; simpl; [|done].
  destruct (has_id_cases c t) as [H|H].
  - rewrite updater_present by done.
    rewrite <-list_fmap_compose.
    replace (opt_id <$> t) with
      (opt_id ∘ (λ m, if decide (opt_id m = Some (id c)) then Some c else m) <$> t)
      at 1; [done|].
    apply list_fmap_ext. intros k m _. simpl. by case_decide.
  - rewrite updater_absent by done. rewrite fmap_app. by apply prefix_app_r.
Qed.

(** C1. The transcript update: a null message changes nothing; when an
    entry with the id of the message is present, the transcript keeps its
    length and every entry with that id is replaced where it stands, the
    others staying as they are; when there is none, the message is appended
    at the end.  In every case the ids of the old entries, in order, are a
    prefix of the ids of the new ones (nothing is removed, nothing moves)
    and an entry with another id is found unchanged at its position. *)
Theorem upsert_spec t (msg : MessageType) :
  (msg = None → upsert msg t = t)
  ∧ (∀ c, msg = Some c → has_id c t →
       length (upsert msg t) = length t
       ∧ ∀ k, upsert msg t !! k
              = (λ m, if decide (opt_id m = Some (id c)) then Some c else m)
                  <$> t !! k)
  ∧ (∀ c, msg = Some c → ¬ has_id c t → upsert msg t = t ++ [Some c])
  ∧ (opt_id <$> t) `prefix_of` (opt_id <$> upsert msg t)
  ∧ (∀ k m, t !! k = Some m → opt_id m ≠ opt_id msg →
       upsert msg t !! k = Some m).
Proof.
  split; [by intros ->|].
  split.
  { intros c -> H. simpl. rewrite updater_present by done.
    split; [by rewrite length_fmap|]. intros k. by rewrite list_lookup_fmap. }
  split; [intros c -> H; by apply updater_absent|].
  split; [apply upsert_ids_prefix|].
  intros k m Hk Hne. destruct msg as [c|]; [simpl|done].
  destruct (has_id_cases c t) as [H|H].
  - rewrite updater_present by done.
    rewrite list_lookup_fmap, Hk. simpl. by rewrite decide_False.
  - rewrite updater_absent by done. by apply lookup_app_l_Some.
Qed.

(** The update at work on a transcript of two entries. *)
Lemma upsert_spec_witness :
  upsert None [Some Samples.msgA1; Some Samples.msgB1]
  = [Some Samples.msgA1; Some Samples.msgB1]
  ∧ upsert (Some Samples.msgA2) [Some Samples.msgA1; Some Samples.msgB1] !! 0
    = Some (Some Samples.msgA2)
  ∧ upsert (Some Samples.msgA2) [Some Samples.msgA1; Some Samples.msgB1] !! 1
    = Some (Some Samples.msgB1)
  ∧ upsert (Some Samples.msgB1) [Some Samples.msgA1]
    = [Some Samples.msgA1; Some Samples.msgB1].
Proof.
  split.
  { exact (proj1 (upsert_spec _ None) eq_refl). }
  split.
  { destruct (upsert_spec [Some Samples.msgA1; Some Samples.msgB1]
                (Some Samples.msgA2)) as (_ & H & _).
    destruct (H Samples.msgA2 eq_refl) as [_ Hk].
    - exists 0, Samples.msgA1. by split.
    - apply (Hk 0). }
  split.
  { destruct (upsert_spec [Some Samples.msgA1; Some Samples.msgB1]
                (Some Samples.msgA2)) as (_ & _ & _ & _ & H).
    apply (H 1); [reflexivity | by vm_compute]. }
  destruct (upsert_spec [Some Samples.msgA1] (Some Samples.msgB1))
    as (_ & _ & H & _).
  apply (H Samples.msgB1 eq_refl).
  intros (k & e & Hk & He). destruct k as [|[|k]]; simpl in Hk; [|done..].
  by injection Hk as <-.
Defined.

(** *** Looking an entry up by its id *)

Lemma has_id_elem_of c t :
  has_id c t ↔ ∃ m, m ∈ t ∧ opt_id m = Some (id c).
Proof.
  split.
  - intros (k & e & Hk & He). exists (Some e). split.
    + by eapply list_elem_of_lookup_2.
    + simpl. by f_equal.
  - intros ([e|] & Hin & Hid); [|done].
    apply list_elem_of_lookup_1 in Hin as [k Hk].
    exists k, e. split; [done|]. by injection Hid.
Qed.

Lemma entry_for_is_Some i t :
  is_Some (entry_for i t) ↔ ∃ m, m ∈ t ∧ opt_id m = Some i.
Proof.
  induction t as [|m t IH]; simpl.
  - split; [by intros [? ?] | by intros (? & ?%elem_of_nil & _)].
  - case_decide as Hm.
    + split; [intros _; exists m; split; [left|done]|].
      intros _. destruct m; [by eexists | done].
    + rewrite IH. split.
      * intros (m' & Hin & Hid). exists m'. split; [by right | done].
      * intros (m' & [->|Hin]%elem_of_cons & Hid); [done | by exists m'].
Qed.

Lemma has_id_entry_for c t : has_id c t ↔ is_Some (entry_for (id c) t).
Proof. by rewrite has_id_elem_of, entry_for_is_Some. Qed.

Lemma entry_for_id i t e : entry_for i t = Some e → id e = i.
Proof.
  induction t as [|m t IH]; simpl; [done|].
  case_decide as Hm; [|done]. intros ->. by injection Hm.
Qed.

Lemma entry_for_app i t1 t2 :
  entry_for i (t1 ++ t2)
  = match entry_for i t1 with Some e => Some e | None => entry_for i t2 end.
Proof.
  induction t1 as [|m t1 IH]; simpl; [done|].
  case_decide as Hm; [|done]. by destruct m.
Qed.

Lemma entry_for_replace_other i c t :
  i ≠ id c →
  entry_for i ((λ m, if decide (opt_id m = Some (id c)) then Some c else m) <$> t)
  = entry_for i t.
Proof.
  intros Hne. induction t as [|m t IH]; [done|].
  rewrite fmap_cons. cbn [entry_for]. rewrite IH.
  destruct (decide (opt_id m = Some (id c))) as [Hm|Hm]; [|done].
  rewrite !decide_False; [done | | simpl]; congruence.
Qed.

Lemma entry_for_replace_same c t :
  is_Some (entry_for (id c) t) →
  entry_for (id c)
    ((λ m, if decide (opt_id m = Some (id c)) then Some c else m) <$> t)
  = Some c.
Proof.
  induction t as [|m t IH]; [by intros [? ?]|].
  rewrite fmap_cons. cbn [entry_for].
  destruct (decide (opt_id m = Some (id c))) as [Hm|Hm].
  - intros _. by rewrite decide_True.
  - intros H. rewrite decide_False by done. by apply IH.
Qed.

(** Last applied wins, and only for its own id. *)
Lemma entry_for_upsert i c t :
  entry_for i (upsert (Some c) t)
  = if decide (i = id c) then Some c else entry_for i t.
Proof.
  simpl. destruct (has_id_cases c t) as [H|H].
  - rewrite updater_present by done.
    destruct (decide (i = id c)) as [->|Hi].
    + by apply entry_for_replace_same, has_id_entry_for.
    + by apply entry_for_replace_other.
  - rewrite updater_absent by done. rewrite entry_for_app. simpl.
    destruct (decide (i = id c)) as [->|Hi].
    + rewrite has_id_entry_for in H.
      destruct (entry_for (id c) t); [by destruct H | by rewrite decide_True].
    + destruct (entry_for i t); [done|]. rewrite decide_False; [done|].
      congruence.
Qed.

Lemma has_id_upsert_other a b t :
  id a ≠ id b → has_id a (upsert (Some b) t) ↔ has_id a t.
Proof.
  intros Hne. rewrite !has_id_entry_for, entry_for_upsert.
  by rewrite decide_False.
Qed.

Lemma upsert_commute_entries a b t i :
  id a ≠ id b →
  entry_for i (upsert (Some a) (upsert (Some b) t))
  = entry_for i (upsert (Some b) (upsert (Some a) t)).
Proof.
  intros Hne. rewrite !entry_for_upsert.
  repeat case_decide; congruence.
Qed.

(** Two snapshots with different ids can be applied in either order: the
    transcripts agree whenever one of the ids is already present, and
    differ only in the order of the two new entries otherwise. *)
Lemma upsert_commute_perm a b t :
  id a ≠ id b →
  upsert (Some a) (upsert (Some b) t) ≡ₚ upsert (Some b) (upsert (Some a) t).
Proof.
  intros Hne.
  assert (∀ x y t', id x ≠ id y → has_id x t' →
            upsert (Some x) (upsert (Some y) t')
            = upsert (Some y) (upsert (Some x) t')) as Hpresent.
  { clear. intros x y t' Hne Hx.
    assert (has_id x (upsert (Some y) t')) as Hx' by by apply has_id_upsert_other.
    simpl in *. rewrite (updater_present x) by done.
    rewrite (updater_present x t') by done.
    destruct (has_id_cases y t') as [Hy|Hy].
    - assert (has_id y (upsert (Some x) t')) as Hy'
        by by apply has_id_upsert_other.
      simpl in Hy'. rewrite (updater_present x t') in Hy' by done.
      rewrite !(updater_present y) by done.
      rewrite <-!list_fmap_compose. apply list_fmap_ext. intros _ m _. simpl.
      repeat (case_decide; simpl in *); congruence.
    - assert (¬ has_id y (upsert (Some x) t')) as Hy'
        by by rewrite has_id_upsert_other.
      simpl in Hy'. rewrite (updater_present x t') in Hy' by done.
      rewrite !(updater_absent y) by done.
      rewrite fmap_app. simpl. rewrite decide_False; [done|].
      simpl. congruence. }
  destruct (has_id_cases a t) as [Ha|Ha]; [by rewrite Hpresent|].
  destruct (has_id_cases b t) as [Hb|Hb]; [by rewrite <-Hpresent|].
  assert (¬ has_id a (upsert (Some b) t)) as Ha' by by rewrite has_id_upsert_other.
  assert (¬ has_id b (upsert (Some a) t)) as Hb' by by rewrite has_id_upsert_other.
  simpl in *. rewrite (updater_absent a _ Ha'), (updater_absent b _ Hb').
  rewrite (updater_absent a _ Ha), (updater_absent b _ Hb).
  rewrite <-!(assoc_L (++)). apply Permutation_app_head. simpl. apply perm_swap.
Qed.

Lemma interleavings_two_one {A} (x1 x2 y : A) :
  interleavings [x1; x2] [y] = [[x1; x2; y]; [x1; y; x2]; [y; x1; x2]].
Proof. reflexivity. Qed.

(** C2. Stream A carries two snapshots of one id, stream B one snapshot of
    another id.  Whatever the transcript they are merged into and whichever
    of the three merges that keep the order of A is applied, the entry
    found for the id of A is the second snapshot of A and the entry found
    for the id of B is the snapshot of B; from the empty transcript the
    result holds exactly these two entries.  Snapshots with different ids
    commute: applied in either order they give the same entry for every
    id, and the same entries up to the order of those newly appended. *)
Theorem merge_order_independent (msgA1 msgA2 msgB1 : Message) t
    (order : list MessageType) :
  id msgA2 = id msgA1 →
  id msgB1 ≠ id msgA1 →
  order ∈ interleavings [Some msgA1; Some msgA2] [Some msgB1] →
  (entry_for (id msgA1) (apply_all order t) = Some msgA2
   ∧ entry_for (id msgB1) (apply_all order t) = Some msgB1)
  ∧ (apply_all order [] = [Some msgA2; Some msgB1]
     ∨ apply_all order [] = [Some msgB1; Some msgA2])
  ∧ (∀ a b, id a ≠ id b →
       (∀ i, entry_for i (upsert (Some a) (upsert (Some b) t))
             = entry_for i (upsert (Some b) (upsert (Some a) t)))
       ∧ upsert (Some a) (upsert (Some b) t)
         ≡ₚ upsert (Some b) (upsert (Some a) t)).
Proof.
  intros HA HB Hin. rewrite interleavings_two_one in Hin.
  split; [|split].
  - rewrite !elem_of_cons, elem_of_nil in Hin. destruct Hin as [->|[->|[->|[]]]];
      unfold apply_all; cbn [foldl]; rewrite !entry_for_upsert;
      rewrite ?HA; repeat case_decide; (done || congruence).
  - assert (∀ x, ¬ has_id x []) as Hnil
      by (intros x (k & e & Hk & _); by destruct k).
    assert (has_id msgA2 [Some msgA1]) as H1 by (by exists 0, msgA1).
    assert (¬ has_id msgB1 [Some msgA1]) as H2.
    { intros (k & e & Hk & He). destruct k as [|[|k]]; simpl in Hk; [|done..].
      injection Hk as <-. done. }
    assert (¬ has_id msgA1 [Some msgB1]) as H3.
    { intros (k & e & Hk & He). destruct k as [|[|k]]; simpl in Hk; [|done..].
      injection Hk as <-. done. }
    assert (has_id msgA2 [Some msgA1; Some msgB1]) as H4 by (by exists 0, msgA1).
    assert (has_id msgA2 [Some msgB1; Some msgA1]) as H5 by (by exists 1, msgA1).
    assert (¬ has_id msgB1 [Some msgA2]) as H6.
    { intros (k & e & Hk & He). destruct k as [|[|k]]; simpl in Hk; [|done..].
      injection Hk as <-. congruence. }
    rewrite !elem_of_cons, elem_of_nil in Hin. destruct Hin as [->|[->|[->|[]]]];
      unfold apply_all; cbn [foldl upsert].
    + rewrite (updater_absent msgA1 []) by done. cbn [app].
      rewrite (updater_present msgA2) by done.
      cbn. rewrite decide_True by (simpl; congruence).
      rewrite (updater_absent msgB1) by done. by left.
    + rewrite (updater_absent msgA1 []) by done. cbn [app].
      rewrite (updater_absent msgB1) by done. cbn [app].
      rewrite (updater_present msgA2) by done.
      cbn. rewrite decide_True by (simpl; congruence).
      rewrite decide_False by (simpl; congruence). by left.
    + rewrite (updater_absent msgB1 []) by done. cbn [app].
      rewrite (updater_absent msgA1) by done. cbn [app].
      rewrite (updater_present msgA2) by done.
      cbn. rewrite decide_False by (simpl; congruence).
      rewrite decide_True by (simpl; congruence). by right.
  - intros a b Hne. split.
    + intros i. by apply upsert_commute_entries.
    + by apply upsert_commute_perm.
Qed.

(** The merge in which the snapshot of B arrives between those of A. *)
Lemma merge_order_independent_witness :
  entry_for "id1"
    (apply_all [Some Samples.msgA1; Some Samples.msgB1; Some Samples.msgA2] [])
  = Some Samples.msgA2
  ∧ entry_for "id2"
      (apply_all [Some Samples.msgA1; Some Samples.msgB1; Some Samples.msgA2] [])
    = Some Samples.msgB1.
Proof.
  refine (proj1 (merge_order_independent Samples.msgA1 Samples.msgA2
                   Samples.msgB1 [] _ eq_refl _ _)).
  - by vm_compute.
  - vm_compute. right. left.
Defined.

(** C2, as stated, fails in its last part: snapshots with different ids do
    not commute as transcripts.  Two new entries stand in the order in which
    they were applied, so the merges of the sample streams end in different
    transcripts. *)
Lemma merge_order_changes_positions :
  apply_all [Some Samples.msgA1; Some Samples.msgA2; Some Samples.msgB1] []
  = [Some Samples.msgA2; Some Samples.msgB1]
  ∧ apply_all [Some Samples.msgB1; Some Samples.msgA1; Some Samples.msgA2] []
    = [Some Samples.msgB1; Some Samples.msgA2]
  ∧ upsert (Some Samples.msgA1) (upsert (Some Samples.msgB1) [])
    ≠ upsert (Some Samples.msgB1) (upsert (Some Samples.msgA1) []).
Proof. split; [reflexivity|]. split; [reflexivity | by vm_compute]. Qed.

(** *** First-seen order *)

Lemma elem_of_first_seen x seen ids :
  x ∈ first_seen seen ids ↔ x ∈ ids ∧ x ∉ seen.
Proof.
  revert seen. induction ids as [|z ids IH]; intros seen; simpl.
  - rewrite !elem_of_nil. tauto.
  - case_decide as Hz.
    + rewrite IH, elem_of_cons. split; [tauto|].
      intros [[->|Hx] Hs]; [done | tauto].
    + rewrite !elem_of_cons, IH, elem_of_app, list_elem_of_singleton.
      destruct (decide (x = z)) as [->|Hxz]; tauto.
Qed.

Lemma NoDup_first_seen seen ids : NoDup (first_seen seen ids).
Proof.
  revert seen. induction ids as [|z ids IH]; intros seen; simpl.
  - constructor.
  - case_decide as Hz; [apply IH|]. constructor; [|apply IH].
    rewrite elem_of_first_seen, elem_of_app, list_elem_of_singleton. tauto.
Qed.

Lemma first_index_elem_of x ids : x ∈ ids → is_Some (first_index x ids).
Proof.
  induction ids as [|z ids IH]; simpl; [by intros ?%elem_of_nil|].
  intros Hx. case_decide as Hz; [by eexists|].
  apply elem_of_cons in Hx as [->|Hx]; [done|].
  destruct (IH Hx) as [k ->]. by eexists.
Qed.

Lemma first_index_lookup x ids k :
  first_index x ids = Some k →
  ids !! k = Some x ∧ ∀ j, j < k → ids !! j ≠ Some x.
Proof.
  revert k. induction ids as [|z ids IH]; intros k; simpl; [done|].
  case_decide as Hz.
  - intros [= <-]. split; [by subst | lia].
  - destruct (first_index x ids) as [k'|]; [|done]. intros [= <-].
    destruct (IH k' eq_refl) as [Hk Hj]. split; [done|].
    intros [|j] Hlt; simpl; [congruence | apply Hj; lia].
Qed.

Lemma first_seen_order seen ids p q x y :
  first_seen seen ids !! p = Some x →
  first_seen seen ids !! q = Some y →
  p < q →
  ∃ kx ky, first_index x ids = Some kx ∧ first_index y ids = Some ky ∧ kx < ky.
Proof.
  revert seen p q. induction ids as [|z ids IH]; intros seen p q; simpl; [done|].
  case_decide as Hz.
  - intros Hp Hq Hlt.
    destruct (IH _ _ _ Hp Hq Hlt) as (kx & ky & Hx & Hy & Hk).
    assert (x ∈ first_seen seen ids) as Hxin by by eapply list_elem_of_lookup_2.
    assert (y ∈ first_seen seen ids) as Hyin by by eapply list_elem_of_lookup_2.
    apply elem_of_first_seen in Hxin as [_ Hxs], Hyin as [_ Hys].
    exists (S kx), (S ky). rewrite !decide_False by congruence.
    rewrite Hx, Hy. simpl. repeat split; [done..|lia].
  - destruct p as [|p], q as [|q]; simpl; try lia.
    + intros [= <-] Hq _.
      assert (y ∈ first_seen (seen ++ [z]) ids) as Hyin
        by by eapply list_elem_of_lookup_2.
      apply elem_of_first_seen in Hyin as [Hyin Hys].
      rewrite elem_of_app, list_elem_of_singleton in Hys.
      destruct (first_index_elem_of _ _ Hyin) as [ky Hy].
      exists 0, (S ky). rewrite decide_True by done.
      rewrite decide_False by (intros ->; tauto). rewrite Hy. simpl.
      repeat split; [done..|lia].
    + intros Hp Hq Hlt.
      destruct (IH _ _ _ Hp Hq ltac:(lia)) as (kx & ky & Hx & Hy & Hk).
      assert (x ∈ first_seen (seen ++ [z]) ids) as Hxin
        by by eapply list_elem_of_lookup_2.
      assert (y ∈ first_seen (seen ++ [z]) ids) as Hyin
        by by eapply list_elem_of_lookup_2.
      apply elem_of_first_seen in Hxin as [_ Hxs], Hyin as [_ Hys].
      rewrite elem_of_app, list_elem_of_singleton in Hxs, Hys.
      exists (S kx), (S ky).
      rewrite !decide_False by (intros ->; tauto).
      rewrite Hx, Hy. simpl. repeat split; [done..|lia].
Qed.

Lemma has_id_input_ids c t : has_id c t ↔ id c ∈ input_ids t.
Proof.
  rewrite has_id_elem_of. unfold input_ids. rewrite list_elem_of_omap.
  naive_solver.
Qed.

Lemma input_ids_opt_id t : input_ids t = omap (λ o, o) (opt_id <$> t).
Proof.
  unfold input_ids. induction t as [|m t IH]; [done|].
  csimpl. rewrite IH. done.
Qed.

(** The ids of the transcript after a run of snapshots: those it had, then
    the new ones in the order they were first seen. *)
Lemma apply_all_ids inputs t :
  opt_id <$> apply_all inputs t
  = (opt_id <$> t) ++ (Some <$> first_seen (input_ids t) (input_ids inputs)).
Proof.
  revert t. induction inputs as [|[c|] inputs IH]; intros t.
  - simpl. by rewrite app_nil_r.
  - change (apply_all (Some c :: inputs) t)
      with (apply_all inputs (upsert (Some c) t)).
    rewrite IH. change (input_ids (Some c :: inputs)) with (id c :: input_ids inputs).
    cbn [first_seen]. cbn [upsert].
    destruct (has_id_cases c t) as [H|H].
    + rewrite decide_True by by apply has_id_input_ids.
      rewrite updater_present by done.
      assert (opt_id <$> ((λ m, if decide (opt_id m = Some (id c))
                                then Some c else m) <$> t) = opt_id <$> t) as Hids.
      { rewrite <-list_fmap_compose. apply list_fmap_ext. intros _ m _.
        simpl. by case_decide. }
      rewrite Hids. do 2 f_equal.
      by rewrite !input_ids_opt_id, Hids.
    + rewrite decide_False by by rewrite <-has_id_input_ids.
      rewrite updater_absent by done.
      rewrite fmap_app, fmap_cons, <-(assoc_L (++)). simpl.
      do 4 f_equal. unfold input_ids. by rewrite omap_app.
  - apply IH.
Qed.

Lemma count_id_NoDup t i :
  NoDup (opt_id <$> t) →
  length (filter (λ m, opt_id m = Some i) t)
  = if decide (Some i ∈ opt_id <$> t) then 1 else 0.
Proof.
  induction t as [|m t IH]; [done|].
  rewrite fmap_cons, NoDup_cons. intros [Hm Hnd].
  rewrite filter_cons. destruct (decide (opt_id m = Some i)) as [Hi|Hi];
    cbn [length]; rewrite (IH Hnd).
  - rewrite Hi in Hm. rewrite decide_False by done.
    rewrite decide_True; [done|]. rewrite Hi. left.
  - destruct (decide (Some i ∈ opt_id <$> t)) as [Hin|Hin].
    + rewrite decide_True; [done | by right].
    + rewrite decide_False; [done|].
      intros [?|?]%elem_of_cons; [congruence | done].
Qed.

(** C3. After any run of updates from the empty transcript: every entry is
    a message; an id handed in (null snapshots aside) has exactly one entry
    and any other id has none; and the entries stand in the order in which
    their ids were first seen: of two entries, the earlier one carries the
    id whose first occurrence in the input comes first. *)
Theorem id_uniqueness (inputs : list MessageType) :
  (None ∉ apply_all inputs [])
  ∧ NoDup (opt_id <$> apply_all inputs [])
  ∧ (∀ i, length (filter (λ m, opt_id m = Some i) (apply_all inputs []))
          = if decide (i ∈ input_ids inputs) then 1 else 0)
  ∧ (∀ p q x y,
       (opt_id <$> apply_all inputs []) !! p = Some (Some x) →
       (opt_id <$> apply_all inputs []) !! q = Some (Some y) →
       p < q →
       ∃ kx ky, first_index x (input_ids inputs) = Some kx
                ∧ first_index y (input_ids inputs) = Some ky
                ∧ kx < ky)
  ∧ opt_id <$> apply_all inputs [] = Some <$> first_seen [] (input_ids inputs).
Proof.
  pose proof (apply_all_ids inputs []) as Hids. simpl in Hids.
  assert (NoDup (opt_id <$> apply_all inputs [])) as Hnd.
  { rewrite Hids. apply (NoDup_fmap_2 _), NoDup_first_seen. }
  assert (∀ i, Some i ∈ opt_id <$> apply_all inputs [] ↔ i ∈ input_ids inputs)
    as Hmem.
  { intros i. rewrite Hids, (list_elem_of_fmap_inj _), elem_of_first_seen.
    rewrite elem_of_nil. tauto. }
  split; [|split; [done|split; [|split; [|done]]]].
  - intros Hin. apply (list_elem_of_fmap_2 opt_id) in Hin.
    rewrite Hids in Hin. by apply list_elem_of_fmap in Hin as (? & ? & _).
  - intros i. rewrite count_id_NoDup by done.
    destruct (decide (i ∈ input_ids inputs)) as [Hi|Hi].
    + by rewrite decide_True by by apply Hmem.
    + by rewrite decide_False by by rewrite Hmem.
  - intros p q x y. rewrite Hids, !list_lookup_fmap.
    intros Hp Hq. apply (first_seen_order []).
    + destruct (first_seen [] (input_ids inputs) !! p); by simplify_eq/=.
    + destruct (first_seen [] (input_ids inputs) !! q); by simplify_eq/=.
Qed.

(** Four snapshots, one of them null, two of them sharing an id. *)
Lemma id_uniqueness_witness :
  ∃ kx ky,
    first_index "id1"
      (input_ids [Some Samples.msgA1; None; Some Samples.msgB1; Some Samples.msgA2])
    = Some kx
    ∧ first_index "id2"
        (input_ids [Some Samples.msgA1; None; Some Samples.msgB1; Some Samples.msgA2])
      = Some ky
    ∧ kx < ky.
Proof.
  destruct (id_uniqueness
              [Some Samples.msgA1; None; Some Samples.msgB1; Some Samples.msgA2])
    as (_ & _ & _ & H & _).
  apply (H 0 1); [reflexivity | reflexivity | lia].
Defined.

End transcript.

(** ** The views *)

Section views.
Implicit Types (message : MessageType) (i : string) (ps : list Part).

Lemma isClientMessage_spec message :
  isClientMessage message = true
  ↔ ∃ i turns tc, message = Some {| id := i; payload := clientContent turns tc |}.
Proof.
  destruct message as [[i [chunks|turns tc|content]]|]; simpl;
    split; try done; try (intros (? & ? & ? & [=])); by eauto.
Qed.

Lemma isRealtimeInputMessage_spec message :
  isRealtimeInputMessage message = true
  ↔ ∃ i chunks, message = Some {| id := i; payload := realtimeInput chunks |}.
Proof.
  destruct message as [[i [chunks|turns tc|content]]|]; simpl;
    split; try done; try (intros (? & ? & [=])); by eauto.
Qed.

Lemma isServerMessage_spec message :
  isServerMessage message = true
  ↔ ∃ i content, message = Some {| id := i; payload := serverContent content |}.
Proof.
  destruct message as [[i [chunks|turns tc|content]]|]; simpl;
    split; try done; try (intros (? & ? & [=])); by eauto.
Qed.

Example base64Decode_chunk5 :
  base64Decode Samples.chunk5 = [104; 101; 108; 108; 111]%Z.
Proof. reflexivity. Qed.

Lemma join_texts_in_order ps : join (part_text <$> ps) = texts_in_order ps.
Proof.
  induction ps as [|p ps IH]; [done|].
  change (join (part_text <$> p :: ps))
    with (part_text p +:+ join (part_text <$> ps)).
  rewrite IH. unfold part_text. simpl. by destruct (text p).
Qed.

Lemma truthy_spec s : truthy s = true ↔ s ≠ "".
Proof.
  unfold truthy. rewrite negb_true_iff, bool_decide_eq_false. done.
Qed.

Lemma filter_none {A} (P : A → Prop) `{!∀ x, Decision (P x)} (l : list A) :
  Forall (λ x, ¬ P x) l → filter P l = [].
Proof.
  induction 1 as [|x l Hx _ IH]; [done|].
  by rewrite filter_cons, decide_False.
Qed.

(** The rate handed to the container: the one constant for a realtime
    input, the other for everything else. *)
Lemma audio_rate message b :
  audioComponent message = Some b →
  sampleRate (ab_blob b)
  = if isRealtimeInputMessage message then 1600%Z else 2400%Z.
Proof.
  unfold audioComponent.
  destruct message as [[i [chunks|turns tc|[[ps|]|tc|]]]|]; simpl;
    try case_bool_decide; intros ?; by simplify_eq/=.
Qed.

(** The payload: the decoded chunks in array order. *)
Lemma audio_payload_realtime i chunks b :
  audioComponent (Some {| id := i; payload := realtimeInput chunks |}) = Some b →
  pcm (ab_blob b)
  = concat (base64Decode ∘ data <$> filter is_pcm16k chunks).
Proof.
  unfold audioComponent. simpl. case_bool_decide; intros [= <-]; simpl.
  unfold base64sToArrayBuffer. by rewrite <-list_fmap_compose.
Qed.

(** C4. A realtime input carrying three chunks of 10, 20 and 5 bytes tagged
    [audio/pcm;rate=16000] yields an audio artifact whose payload is the
    three decoded chunks in array order, 35 bytes long; the sample rate the
    code declares for it is 1600, and 2400 for audio of a model turn. *)
Theorem audio_declared_rate :
  (∃ b, audioComponent (Some Samples.audio_input) = Some b
        ∧ pcm (ab_blob b)
          = base64Decode Samples.chunk10 ++ base64Decode Samples.chunk20
            ++ base64Decode Samples.chunk5
        ∧ length (pcm (ab_blob b)) = 35
        ∧ sampleRate (ab_blob b) = 1600%Z)
  ∧ (∃ b, audioComponent (Some Samples.model_audio) = Some b
          ∧ sampleRate (ab_blob b) = 2400%Z).
Proof. split; eexists; repeat split. Qed.

(** C5, as stated, fails: a model turn whose only part has the text [""]
    shows nothing at all, so what is extracted is not the empty string. *)
Lemma server_empty_text_is_null :
  textComponent (Some (Samples.model_says "id2" [Samples.text_part ""])) = None
  ∧ extractText (Some (Samples.model_says "id2" [Samples.text_part ""])) ≠ Text "".
Proof. split; [reflexivity | by vm_compute]. Qed.

(** C5, amended. A model turn with an empty parts array yields the pending
    state: a bubble with [loading] on, not an empty text.  A model turn
    whose only part has the text [""] yields nothing (null): neither the
    pending state nor an empty text. *)
Theorem server_pending_vs_empty i :
  textComponent (Some (Samples.model_says i []))
  = Some {| tb_key := i; tb_placement := placement_start;
            tb_loading := true; tb_content := "" |}
  ∧ extractText (Some (Samples.model_says i [])) = Pending
  ∧ textComponent (Some (Samples.model_says i [Samples.text_part ""])) = None
  ∧ extractText (Some (Samples.model_says i [Samples.text_part ""])) = NoText.
Proof. repeat split. Qed.

(** Text of a model turn in general: pending exactly when there is no part,
    the concatenation when it is not empty, nothing otherwise. *)
Lemma server_text i ps :
  extractText (Some (Samples.model_says i ps))
  = if decide (ps = []) then Pending
    else if decide (texts_in_order ps = "") then NoText
    else Text (texts_in_order ps).
Proof.
  unfold extractText, textComponent. simpl. rewrite join_texts_in_order.
  destruct ps as [|p ps]; [done|]. simpl bool_decide. cbn [orb].
  rewrite decide_False by done.
  destruct (decide (texts_in_order (p :: ps) = "")) as [He|He].
  - rewrite He. done.
  - apply truthy_spec in He. by rewrite He.
Qed.

(** C6, as stated, fails: a user turn whose text is empty shows nothing
    (null), not an empty text. *)
Lemma client_empty_text_is_null :
  textComponent (Some (Samples.user_says "id1" "")) = None
  ∧ extractText (Some (Samples.user_says "id1" "")) ≠ Text "".
Proof. split; [reflexivity | by vm_compute]. Qed.

(** C6, amended. For a client message with a first turn, when the text
    fields of the parts of that turn, concatenated in order, give a string
    that is not empty, that string is the extracted text, shown on the
    user's side; when they give the empty string, nothing is extracted
    (null).  Without a first turn nothing is extracted either. *)
Theorem client_text_extraction i (turn : Content) (rest : list Content)
    (tc : bool) :
  (texts_in_order (parts turn) ≠ "" →
     textComponent (Some {| id := i; payload := clientContent (turn :: rest) tc |})
     = Some {| tb_key := i; tb_placement := placement_end; tb_loading := false;
               tb_content := texts_in_order (parts turn) |}
     ∧ extractText (Some {| id := i; payload := clientContent (turn :: rest) tc |})
       = Text (texts_in_order (parts turn)))
  ∧ (texts_in_order (parts turn) = "" →
       textComponent (Some {| id := i; payload := clientContent (turn :: rest) tc |})
       = None)
  ∧ textComponent (Some {| id := i; payload := clientContent [] tc |}) = None.
Proof.
  unfold extractText, textComponent. simpl. rewrite join_texts_in_order.
  split; [|split; [|done]].
  - intros He. apply truthy_spec in He. by rewrite He.
  - intros ->. done.
Qed.

(** A turn of two text parts around a part without text. *)
Lemma client_text_extraction_witness :
  extractText
    (Some {| id := "id1";
             payload := clientContent
               [ {| role := "user";
                    parts := [ Samples.text_part "hel";
                               {| text := None; inlineData := None |};
                               Samples.text_part "lo" ] |} ] true |})
  = Text "hello"
  ∧ textComponent (Some (Samples.user_says "id1" "")) = None.
Proof.
  split.
  - refine (proj2 (proj1 (client_text_extraction "id1"
              {| role := "user";
                 parts := [ Samples.text_part "hel";
                            {| text := None; inlineData := None |};
                            Samples.text_part "lo" ] |} [] true) _)).
    by vm_compute.
  - exact (proj1 (proj2 (client_text_extraction "id1"
              {| role := "user"; parts := [Samples.text_part ""] |} [] true))
             eq_refl).
Defined.

Lemma videoComponent_realtime i chunks :
  videoComponent (Some {| id := i; payload := realtimeInput chunks |}) = None
  ↔ Forall (λ c, ¬ is_jpeg c) chunks.
Proof.
  unfold videoComponent. simpl. rewrite length_fmap. split.
  - case_bool_decide as Hlen; [done|]. intros _.
    apply nil_length_inv in Hlen.
    apply Forall_forall. intros c Hc Hj.
    assert (c ∈ filter is_jpeg chunks) as Hin by by apply list_elem_of_filter.
    rewrite Hlen in Hin. by apply elem_of_nil in Hin.
  - intros H. by rewrite (filter_none _ _ H).
Qed.

Lemma audioComponent_realtime i chunks :
  audioComponent (Some {| id := i; payload := realtimeInput chunks |}) = None
  ↔ Forall (λ c, ¬ is_pcm16k c) chunks.
Proof.
  unfold audioComponent. simpl. rewrite length_fmap. split.
  - case_bool_decide as Hlen; [done|]. intros _.
    apply nil_length_inv in Hlen.
    apply Forall_forall. intros c Hc Hj.
    assert (c ∈ filter is_pcm16k chunks) as Hin by by apply list_elem_of_filter.
    rewrite Hlen in Hin. by apply elem_of_nil in Hin.
  - intros H. by rewrite (filter_none _ _ H).
Qed.

Lemma audioComponent_server i ps :
  audioComponent (Some (Samples.model_says i ps)) = None
  ↔ Forall (λ p, ¬ is_pcm24k p) ps.
Proof.
  unfold audioComponent. simpl. rewrite length_fmap. split.
  - case_bool_decide as Hlen; [done|]. intros _.
    apply nil_length_inv in Hlen.
    apply Forall_forall. intros c Hc Hj.
    assert (c ∈ filter is_pcm24k ps) as Hin by by apply list_elem_of_filter.
    rewrite Hlen in Hin. by apply elem_of_nil in Hin.
  - intros H. by rewrite (filter_none _ _ H).
Qed.

(** C9. A client message has neither an audio nor a video artifact.  A
    realtime input none of whose chunks is a JPEG image with data has no
    video artifact, and none of whose chunks is 16 kHz audio with data has
    no audio artifact: so for an empty chunk list, for empty data fields
    and for other MIME types.  A model turn none of whose parts carries
    24 kHz audio with data has no audio artifact; a server message has no
    video artifact, and no audio artifact without a model turn.  The views
    are total functions: null is a result, never an error. *)
Theorem no_artifact_cases i :
  (∀ turns tc,
     audioComponent (Some {| id := i; payload := clientContent turns tc |}) = None
     ∧ videoComponent (Some {| id := i; payload := clientContent turns tc |}) = None)
  ∧ (∀ chunks,
       Forall (λ c, data c = "" ∨ mimeType c ≠ "image/jpeg") chunks →
       videoComponent (Some {| id := i; payload := realtimeInput chunks |}) = None)
  ∧ (∀ chunks,
       Forall (λ c, data c = "" ∨ mimeType c ≠ "audio/pcm;rate=16000") chunks →
       audioComponent (Some {| id := i; payload := realtimeInput chunks |}) = None)
  ∧ (∀ ps,
       Forall (λ p, ∀ blob, inlineData p = Some blob →
                    data blob = "" ∨ mimeType blob ≠ "audio/pcm;rate=24000") ps →
       audioComponent (Some {| id := i; payload := serverContent (SCModelTurn (Some ps)) |})
       = None)
  ∧ (∀ content,
       videoComponent (Some {| id := i; payload := serverContent content |}) = None
       ∧ (hasModelTurn content = false →
          audioComponent (Some {| id := i; payload := serverContent content |}) = None)).
Proof.
  split; [done|]. split; [|split; [|split]].
  - intros chunks H. apply videoComponent_realtime.
    eapply Forall_impl; [exact H|]. intros c Hc [Hm Hd]. simpl in Hc. tauto.
  - intros chunks H. apply audioComponent_realtime.
    eapply Forall_impl; [exact H|]. intros c Hc [Hm Hd]. simpl in Hc. tauto.
  - intros ps H. apply (audioComponent_server i).
    eapply Forall_impl; [exact H|]. intros p Hp. simpl in Hp.
    unfold is_pcm24k. destruct (inlineData p) as [blob|]; [|tauto].
    intros [Hm Hd]. destruct (Hp blob eq_refl); tauto.
  - intros content. split; [done|]. by destruct content as [[ps|]|tc|].
Qed.

(** Empty list, empty data, another MIME type. *)
Lemma no_artifact_cases_witness :
  videoComponent
    (Some {| id := "id3";
             payload := realtimeInput
               [ {| mimeType := "image/jpeg"; data := "" |};
                 {| mimeType := "image/png"; data := "aGVsbG8=" |} ] |}) = None
  ∧ audioComponent
      (Some {| id := "id3";
               payload := realtimeInput
                 [ {| mimeType := "audio/pcm;rate=16000"; data := "" |};
                   {| mimeType := "audio/wav"; data := "aGVsbG8=" |} ] |}) = None
  ∧ audioComponent
      (Some (Samples.model_says "id4"
               [ Samples.text_part "hi";
                 {| text := None;
                    inlineData := Some {| mimeType := "audio/pcm;rate=24000";
                                          data := "" |} |} ])) = None
  ∧ audioComponent
      (Some {| id := "id4"; payload := serverContent (SCTurnComplete true) |}) = None.
Proof.
  destruct (no_artifact_cases "id3") as (_ & Hv & Ha & _).
  destruct (no_artifact_cases "id4") as (_ & _ & _ & Hs & Hn).
  split; [|split; [|split]].
  - apply Hv. constructor; [by left|]. constructor; [by right|]. constructor.
  - apply Ha. constructor; [by left|]. constructor; [by right|]. constructor.
  - apply Hs. constructor; [|constructor; [|constructor]].
    + intros blob Hb. simpl in Hb. discriminate Hb.
    + intros blob Hb. simpl in Hb. injection Hb as <-. by left.
  - apply (proj2 (Hn (SCTurnComplete true))). reflexivity.
Defined.

(** C10. Of the null message, each of the three classifiers says no, and
    each of the three views is null. *)
Theorem null_message_views :
  isClientMessage None = false
  ∧ isRealtimeInputMessage None = false
  ∧ isServerMessage None = false
  ∧ textComponent None = None
  ∧ videoComponent None = None
  ∧ audioComponent None = None.
Proof. repeat split. Qed.

End views.

(** ** The video pipeline *)

Section video.
Implicit Types (s : VideoPlayer) (p : Pipeline) (e : Event).

Lemma live_false p :
  live p = false ↔ timer p = false ∧ recorder p = rec_stopped.
Proof.
  unfold live. rewrite orb_false_iff, negb_false_iff, bool_decide_eq_true.
  done.
Qed.

Lemma under_way_live p : under_way p → live p = true.
Proof.
  unfold live. intros [[-> ->]|[-> ->]]; done.
Qed.

Lemma single_pipeline_useEffect s imgs ival rate :
  single_pipeline s → single_pipeline (useEffect imgs ival rate s).
Proof.
  unfold useEffect, single_pipeline.
  destruct (recorderRef s) as [k|] eqn:Hr.
  - rewrite (bool_decide_eq_true_2 (is_Some (Some k))) by by eexists.
    rewrite andb_false_r. by rewrite Hr.
  - intros Hdead. destruct (_ && _); simpl; [|by rewrite Hr].
    eexists _, _. split; [done|]. split; [done|]. split; [done|].
    by left.
Qed.

Lemma single_pipeline_tick s k : single_pipeline s → single_pipeline (tick k s).
Proof.
  unfold tick. destruct (pipelines s !! k) as [p|] eqn:Hp; [|done].
  destruct (timer p) eqn:Ht; [|done].
  unfold single_pipeline. simpl. destruct (recorderRef s) as [r|].
  - intros (before & q & Hps & -> & Hdead & Hq).
    rewrite Hps in Hp. apply lookup_app_Some in Hp as [Hp|[Hk Hp]].
    { apply list_elem_of_lookup_2 in Hp.
      rewrite Forall_forall in Hdead. apply Hdead in Hp.
      apply live_false in Hp as [Hp _]. congruence. }
    destruct (k - length before) as [|j] eqn:Hj; simpl in Hp; [|done].
    injection Hp as ->. assert (k = length before) as -> by lia.
    exists before, (interval_callback p). split; [|split; [done|split; [done|]]].
    + rewrite Hps, insert_app_r_alt by done. by rewrite Hj.
    + destruct Hq as [[_ Hrec]|[? _]]; [|congruence].
      unfold under_way, interval_callback. simpl. case_bool_decide; tauto.
  - intros Hdead. rewrite Forall_forall in Hdead.
    apply list_elem_of_lookup_2 in Hp. apply Hdead in Hp.
    apply live_false in Hp as [Hp _]. congruence.
Qed.

Lemma single_pipeline_onstop s k :
  single_pipeline s → single_pipeline (onstop k s).
Proof.
  unfold onstop. destruct (pipelines s !! k) as [p|] eqn:Hp; [|done].
  case_decide as Hrec; [|done].
  unfold single_pipeline at 1. destruct (recorderRef s) as [r|].
  - intros (before & q & Hps & -> & Hdead & Hq).
    rewrite Hps in Hp. apply lookup_app_Some in Hp as [Hp|[Hk Hp]].
    { apply list_elem_of_lookup_2 in Hp.
      rewrite Forall_forall in Hdead. apply Hdead in Hp.
      apply live_false in Hp as [_ Hp]. congruence. }
    destruct (k - length before) as [|j] eqn:Hj; simpl in Hp; [|done].
    injection Hp as ->. assert (k = length before) as -> by lia.
    unfold single_pipeline. simpl.
    rewrite Hps, insert_app_r_alt by done. rewrite Hj. simpl.
    apply Forall_app. split; [done|]. constructor; [|done].
    apply live_false. simpl. destruct Hq as [[_ ?]|[? _]]; [congruence|done].
  - intros Hdead. rewrite Forall_forall in Hdead.
    apply list_elem_of_lookup_2 in Hp. apply Hdead in Hp.
    apply live_false in Hp as [_ Hp]. congruence.
Qed.

Lemma single_pipeline_step s e : single_pipeline s → single_pipeline (step s e).
Proof.
  destruct e; simpl.
  - apply single_pipeline_useEffect.
  - apply single_pipeline_tick.
  - apply single_pipeline_onstop.
Qed.

Lemma single_pipeline_run events s :
  single_pipeline s → single_pipeline (run events s).
Proof.
  revert s. induction events as [|e events IH]; intros s Hs; [done|].
  apply IH, single_pipeline_step, Hs.
Qed.

Lemma single_pipeline_mounted : single_pipeline mounted.
Proof. constructor. Qed.

Lemma single_pipeline_counts s :
  single_pipeline s →
  live_count s = (if recorderRef s is Some _ then 1 else 0)
  ∧ timers s ≤ 1 ∧ sessions s ≤ 1.
Proof.
  unfold single_pipeline, live_count, timers, sessions.
  assert (∀ ps, Forall (λ p, live p = false) ps →
            filter (λ p, live p = true) ps = []
            ∧ filter (λ p, timer p = true) ps = []
            ∧ filter (λ p, recorder p ≠ rec_stopped) ps = []) as Hover.
  { intros ps Hps. repeat split; apply filter_none;
      (eapply Forall_impl; [exact Hps|]); intros p Hp; simpl in Hp;
      destruct (proj1 (live_false p) Hp) as [Ht Hr]; congruence. }
  destruct (recorderRef s) as [k|].
  - intros (before & p & -> & _ & Hdead & Hp).
    rewrite !filter_app. destruct (Hover _ Hdead) as (-> & -> & ->).
    cbn [app]. rewrite !filter_cons, !filter_nil.
    rewrite (decide_True _ _ (under_way_live _ Hp)).
    split; [done|]. split; case_decide; simpl; lia.
  - intros Hdead. destruct (Hover _ Hdead) as (-> & -> & ->). simpl. lia.
Qed.

Lemma canvasRef_step s e : canvasRef (step s e) = canvasRef s.
Proof.
  destruct e as [imgs ival rate|k|k]; simpl.
  - unfold useEffect. by destruct (_ && _).
  - unfold tick. destruct (pipelines s !! k) as [p|]; [|done].
    by destruct (timer p).
  - unfold onstop. destruct (pipelines s !! k) as [p|]; [|done].
    by case_decide.
Qed.

Lemma canvasRef_run events s : canvasRef (run events s) = canvasRef s.
Proof.
  revert s. induction events as [|e events IH]; intros s; [done|].
  simpl. by rewrite IH, canvasRef_step.
Qed.

(** C8. Whatever has happened to a player since it was mounted (effect
    runs, timer ticks, stop events, in any order), at most one pipeline is
    under way: at most one timer is registered and at most one recorder
    session is open.  While one is under way the ref holds its recorder and
    a further run of the effect, with whatever images, changes nothing at
    all: no second timer, no second session.  Only once none is under way
    does a run of the effect with a frame start one. *)
Theorem one_pipeline_at_a_time (events : list Event) :
  live_count (run events mounted) ≤ 1
  ∧ timers (run events mounted) ≤ 1
  ∧ sessions (run events mounted) ≤ 1
  ∧ (live_count (run events mounted) = 1
     ↔ is_Some (recorderRef (run events mounted)))
  ∧ (live_count (run events mounted) = 1 →
     ∀ imgs ival rate,
       step (run events mounted) (Effect imgs ival rate) = run events mounted)
  ∧ (live_count (run events mounted) = 0 →
     ∀ imgs ival rate, imgs ≠ [] →
       live_count (step (run events mounted) (Effect imgs ival rate)) = 1).
Proof.
  pose proof (single_pipeline_run events _ single_pipeline_mounted) as Hinv.
  pose proof (canvasRef_run events mounted) as Hcanvas. simpl in Hcanvas.
  destruct (single_pipeline_counts _ Hinv) as (Hlive & Ht & Hs).
  assert (live_count (run events mounted) = 1
          ↔ is_Some (recorderRef (run events mounted))) as Href.
  { rewrite Hlive. destruct (recorderRef (run events mounted)).
    - split; [by eexists | done].
    - split; [done | by intros [? ?]]. }
  split; [rewrite Hlive; case_match; lia|].
  split; [done|]. split; [done|]. split; [done|]. split.
  - intros H1%Href imgs ival rate. simpl. unfold useEffect.
    by rewrite (bool_decide_eq_true_2 _ H1), andb_false_r.
  - intros H0 imgs ival rate Himgs.
    pose proof (single_pipeline_step _ (Effect imgs ival rate) Hinv) as Hinv'.
    destruct (single_pipeline_counts _ Hinv') as (-> & _). simpl.
    unfold useEffect. rewrite Hcanvas.
    rewrite bool_decide_eq_true_2 by (destruct imgs; [done | simpl; lia]).
    rewrite bool_decide_eq_false_2; [done|].
    rewrite <-Href. lia.
Qed.

(** The effect runs again after the first tick of a clip of four frames. *)
Lemma one_pipeline_at_a_time_witness :
  step (run [Effect Samples.frames4 2000 10; Tick 0] mounted)
    (Effect Samples.frames4 2000 10)
  = run [Effect Samples.frames4 2000 10; Tick 0] mounted.
Proof.
  destruct (one_pipeline_at_a_time [Effect Samples.frames4 2000 10; Tick 0])
    as (_ & _ & _ & _ & H & _).
  apply H. reflexivity.
Defined.

(** *** Termination *)

Lemma run_app events1 events2 s :
  run (events1 ++ events2) s = run events2 (run events1 s).
Proof. apply foldl_app. Qed.

(** A clip of [n] frames: each of the first [n] ticks shows the next frame
    and leaves the timer and the recorder running. *)
Lemma ticks_show_frames imgs ival rate k :
  0 < length imgs → k ≤ length imgs →
  run (replicate k (Tick 0)) (useEffect imgs ival rate mounted)
  = {| canvasRef := true; recorderRef := Some 0; video := None;
       poster := imgs !! 0;
       pipelines :=
         [ {| images := imgs; interval := ival; frameRate := rate;
              recorder := rec_recording; timer := true;
              currentImageIndex := k;
              shown := (imgs !!.) <$> seq 0 k |} ] |}.
Proof.
  intros Hlen. induction k as [|k IH]; intros Hk.
  - unfold useEffect. simpl. by rewrite bool_decide_eq_true_2.
  - rewrite replicate_S_end, run_app, IH by lia.
    rewrite seq_S, fmap_app. cbn [run foldl step].
    unfold tick, with_pipelines, interval_callback. cbn -[seq].
    by rewrite bool_decide_eq_false_2 by lia.
Qed.

(** The tick after those is the one that stops the recorder and clears the
    timer. *)
Lemma last_tick_stops imgs ival rate :
  0 < length imgs →
  run (replicate (S (length imgs)) (Tick 0)) (useEffect imgs ival rate mounted)
  = {| canvasRef := true; recorderRef := Some 0; video := None;
       poster := imgs !! 0;
       pipelines :=
         [ {| images := imgs; interval := ival; frameRate := rate;
              recorder := rec_stop_queued; timer := false;
              currentImageIndex := S (length imgs);
              shown := ((imgs !!.) <$> seq 0 (length imgs)) ++ [None] |} ] |}.
Proof.
  intros Hlen. rewrite replicate_S_end, run_app, ticks_show_frames by lia.
  cbn [run foldl step]. unfold tick, with_pipelines, interval_callback.
  cbn -[seq]. rewrite bool_decide_eq_true_2 by lia.
  by rewrite (lookup_ge_None_2 imgs (length imgs)) by lia.
Qed.

(** C7, as stated, fails: with four frames, after four ticks the recorder
    is still recording and the timer is still registered; the stop has not
    happened. *)
Lemma not_stopped_after_four_ticks :
  phase (run (Effect Samples.frames4 2000 10 :: replicate 4 (Tick 0)) mounted)
  = Draining
  ∧ phase (run (Effect Samples.frames4 2000 10 :: replicate 4 (Tick 0)) mounted)
    ≠ Finalizing
  ∧ timers (run (Effect Samples.frames4 2000 10 :: replicate 4 (Tick 0)) mounted)
    = 1
  ∧ recorder
      <$> pipelines
            (run (Effect Samples.frames4 2000 10 :: replicate 4 (Tick 0)) mounted)
          !! 0
    = Some rec_recording.
Proof. repeat split. by vm_compute. Qed.

(** C7, amended. With four frames, a frame rate of 10 and an interval of
    2000, the player goes Idle, Encoding, Draining, Finalizing, Complete:
    the first four ticks show the four frames in order, the cursor is at
    the end after the fourth, and it is the fifth tick that stops the
    recorder and clears the timer; the stop event then delivers the clip.
    The poster is the first frame from the run of the effect onward, so at
    every tick; until the clip is there the [video] element shows it when it
    is not the empty string. *)
Theorem video_termination (f0 f1 f2 f3 : string) :
  phase <$> trace (Effect [f0; f1; f2; f3] 2000 10
                     :: replicate 5 (Tick 0) ++ [OnStop 0]) mounted
  = [Idle; Encoding; Encoding; Encoding; Encoding; Draining; Finalizing; Complete]
  ∧ poster <$> trace (Effect [f0; f1; f2; f3] 2000 10
                        :: replicate 5 (Tick 0) ++ [OnStop 0]) mounted
    = None :: replicate 7 (Some f0)
  ∧ renders <$> trace (Effect [f0; f1; f2; f3] 2000 10
                         :: replicate 5 (Tick 0) ++ [OnStop 0]) mounted
    = false :: replicate 6 (truthy f0) ++ [true]
  ∧ timers <$> trace (Effect [f0; f1; f2; f3] 2000 10
                        :: replicate 5 (Tick 0) ++ [OnStop 0]) mounted
    = [0; 1; 1; 1; 1; 1; 0; 0]
  ∧ shown <$> pipelines
                (run (Effect [f0; f1; f2; f3] 2000 10 :: replicate 4 (Tick 0))
                   mounted) !! 0
    = Some [Some f0; Some f1; Some f2; Some f3]
  ∧ video (run (Effect [f0; f1; f2; f3] 2000 10
                  :: replicate 5 (Tick 0) ++ [OnStop 0]) mounted)
    = Some 0.
Proof. repeat split. Qed.

End video.

(** ** More on the transcript *)

Section transcript_more.
Implicit Types (t : list MessageType) (c a b : Message) (i : string).

Lemma has_id_upsert_same c t : has_id c (upsert (Some c) t).
Proof.
  apply has_id_entry_for. rewrite entry_for_upsert, decide_True by done.
  by eexists.
Qed.

Lemma replace_absent c t :
  ¬ has_id c t →
  (λ m, if decide (opt_id m = Some (id c)) then Some c else m) <$> t = t.
Proof.
  intros H. rewrite <-(list_fmap_id t) at 2. apply list_fmap_ext.
  intros k m Hk. simpl. case_decide as Hm; [|done].
  destruct H. apply has_id_elem_of. exists m. split; [|done].
  by eapply list_elem_of_lookup_2.
Qed.

(** Applying a snapshot a second time changes nothing. *)
Theorem upsert_idempotent (msg : MessageType) t :
  upsert msg (upsert msg t) = upsert msg t.
Proof.
  destruct msg as [c|]; [|done].
  cbn [upsert]. rewrite (updater_present c (setMessages_updater c t))
    by apply (has_id_upsert_same c t).
  destruct (has_id_cases c t) as [H|H].
  - rewrite updater_present by done. rewrite <-list_fmap_compose.
    apply list_fmap_ext. intros _ m _. simpl.
    destruct (decide (opt_id m = Some (id c))); [by rewrite decide_True|].
    by rewrite decide_False.
  - rewrite updater_absent by done. rewrite fmap_app, replace_absent by done.
    simpl. by rewrite decide_True.
Qed.

(** After a run of snapshots the entry found for an id is the last snapshot
    of the run that carries it, whole; an id the run does not carry keeps the
    entry it had. *)
Theorem last_snapshot_wins (inputs : list MessageType) t i :
  entry_for i (apply_all inputs t)
  = match Session.last_with_id i inputs with
    | Some c => Some c
    | None => entry_for i t
    end.
Proof.
  revert t. induction inputs as [|m inputs IH]; intros t; [done|].
  change (apply_all (m :: inputs) t) with (apply_all inputs (upsert m t)).
  rewrite IH. cbn [Session.last_with_id].
  destruct (Session.last_with_id i inputs) as [c|]; [done|].
  destruct m as [c|]; [|by rewrite decide_False].
  rewrite entry_for_upsert. simpl.
  destruct (decide (i = id c)) as [->|Hi].
  - by rewrite decide_True.
  - rewrite decide_False; [done | congruence].
Qed.

Lemma input_ids_Some (ids : list string) : omap (λ o, o) (Some <$> ids) = ids.
Proof. induction ids as [|x ids IH]; [done|]. csimpl. by rewrite IH. Qed.

(** A transcript in which no id occurs twice stays so, whatever snapshots
    are applied to it. *)
Theorem unique_ids_kept (inputs : list MessageType) t :
  NoDup (input_ids t) → NoDup (input_ids (apply_all inputs t)).
Proof.
  intros Hnd. rewrite (input_ids_opt_id (apply_all inputs t)), apply_all_ids.
  rewrite omap_app, <-input_ids_opt_id, input_ids_Some.
  apply NoDup_app. split; [done|]. split; [|apply NoDup_first_seen].
  intros x Hx Hx'. apply elem_of_first_seen in Hx'. tauto.
Qed.

Lemma unique_ids_kept_witness :
  NoDup (input_ids
           (apply_all [Some Samples.msgA2; Some Samples.msgB1]
              [Some Samples.msgA1])).
Proof.
  apply unique_ids_kept. apply NoDup_cons. split; [|apply NoDup_nil_2].
  apply not_elem_of_nil.
Defined.

Lemma upsert_commute_present a b t :
  id a ≠ id b → has_id a t →
  upsert (Some a) (upsert (Some b) t) = upsert (Some b) (upsert (Some a) t).
Proof.
  intros Hne Ha.
  assert (has_id a (upsert (Some b) t)) as Ha' by by apply has_id_upsert_other.
  cbn [upsert] in *. rewrite (updater_present a _ Ha'), (updater_present a t Ha).
  destruct (has_id_cases b t) as [Hb|Hb].
  - assert (has_id b (upsert (Some a) t)) as Hb' by by apply has_id_upsert_other.
    cbn [upsert] in Hb'. rewrite (updater_present a t Ha) in Hb'.
    rewrite (updater_present b _ Hb'), (updater_present b t Hb).
    rewrite <-!list_fmap_compose. apply list_fmap_ext. intros _ m _. simpl.
    repeat (case_decide; simpl in * ); congruence.
  - assert (¬ has_id b (upsert (Some a) t)) as Hb'
      by by rewrite has_id_upsert_other.
    cbn [upsert] in Hb'. rewrite (updater_present a t Ha) in Hb'.
    rewrite (updater_absent b _ Hb'), (updater_absent b t Hb).
    rewrite fmap_app. simpl. rewrite decide_False; [done|]. simpl. congruence.
Qed.

(** Two snapshots with different ids give the same transcript in either
    order exactly when one of the two ids is already in the transcript; when
    both are new, the two orders differ (in the order of the new entries). *)
Theorem upsert_commute_iff a b t :
  id a ≠ id b →
  (upsert (Some a) (upsert (Some b) t) = upsert (Some b) (upsert (Some a) t)
   ↔ has_id a t ∨ has_id b t).
Proof.
  intros Hne. split.
  - intros Heq.
    destruct (has_id_cases a t) as [Ha|Ha]; [by left|].
    destruct (has_id_cases b t) as [Hb|Hb]; [by right|]. exfalso.
    assert (¬ has_id a (upsert (Some b) t)) as Ha' by by rewrite has_id_upsert_other.
    assert (¬ has_id b (upsert (Some a) t)) as Hb' by by rewrite has_id_upsert_other.
    cbn [upsert] in *.
    rewrite (updater_absent a _ Ha'), (updater_absent b _ Hb') in Heq.
    rewrite (updater_absent a _ Ha), (updater_absent b _ Hb) in Heq.
    rewrite <-!(assoc_L (++)) in Heq. apply app_inv_head in Heq.
    injection Heq as -> _. done.
  - intros [Ha|Hb]; [by apply upsert_commute_present|].
    symmetry. by apply upsert_commute_present.
Qed.

Lemma upsert_commute_iff_witness :
  upsert (Some Samples.msgA2) (upsert (Some Samples.msgB1) [Some Samples.msgA1])
  = upsert (Some Samples.msgB1) (upsert (Some Samples.msgA2) [Some Samples.msgA1]).
Proof.
  apply (upsert_commute_iff Samples.msgA2 Samples.msgB1 [Some Samples.msgA1]).
  - by vm_compute.
  - left. by exists 0, Samples.msgA1.
Defined.

End transcript_more.

(** ** The two streams of [LivePage] *)

Section session.
Import Session.
Implicit Types (s : LivePage) (arrivals : list Arrival) (i : string).

Lemma session_run_app arrivals1 arrivals2 s :
  run (arrivals1 ++ arrivals2) s = run arrivals2 (run arrivals1 s).
Proof. apply foldl_app. Qed.

Lemma delivered_app arrivals1 arrivals2 :
  delivered (arrivals1 ++ arrivals2) = delivered arrivals1 ++ delivered arrivals2.
Proof.
  induction arrivals1 as [|[m|m|] arrivals1 IH]; simpl; by rewrite ?IH.
Qed.

Lemma apply_all_app (inputs1 inputs2 t : list MessageType) :
  apply_all (inputs1 ++ inputs2) t = apply_all inputs2 (apply_all inputs1 t).
Proof. apply foldl_app. Qed.

Lemma last_with_id_other i (requests : list Message) :
  (∀ m, m ∈ requests → id m ≠ i) → last_with_id i (Some <$> requests) = None.
Proof.
  induction requests as [|m requests IH]; intros H; [done|].
  rewrite fmap_cons. cbn [last_with_id]. rewrite IH.
  - rewrite decide_False; [done|]. simpl. intros [= Hm]. by apply (H m); [left|].
  - intros m' Hm'. apply H. by right.
Qed.

(** What the page will show, entry by entry, once the pending frame requests
    have run. *)
Lemma pending_view arrivals :
  (∀ b u, BotMessage (Some b) ∈ arrivals → UserMessage (Some u) ∈ arrivals →
          id b ≠ id u) →
  (∀ m, m ∈ frameRequests (run arrivals initial) →
        BotMessage (Some m) ∈ arrivals)
  ∧ ∀ i, entry_for i (apply_all (Some <$> frameRequests (run arrivals initial))
                        (messages (run arrivals initial)))
         = entry_for i (apply_all (delivered arrivals) []).
Proof.
  induction arrivals as [|a arrivals IH] using rev_ind; intros Hids.
  - split; [by intros m ?%elem_of_nil | done].
  - destruct IH as [Hreq Hview].
    { intros b u Hb Hu. apply Hids; apply elem_of_app; by left. }
    rewrite session_run_app, delivered_app. cbn [run foldl].
    destruct a as [[b|]|u|]; cbn [step messages frameRequests delivered].
    + split.
      * intros m [Hm|Hm]%elem_of_app; apply elem_of_app.
        -- left. by apply Hreq.
        -- right. apply list_elem_of_singleton in Hm as ->. left.
      * intros i. rewrite fmap_app, !apply_all_app. simpl.
        change (setMessages_updater b ?t) with (upsert (Some b) t).
        by rewrite !entry_for_upsert, Hview.
    + split.
      * intros m Hm. apply elem_of_app. left. by apply Hreq.
      * intros i. rewrite apply_all_app. simpl. apply Hview.
    + split.
      * intros m Hm. apply elem_of_app. left. by apply Hreq.
      * intros i. rewrite apply_all_app. cbn [apply_all foldl].
        rewrite last_snapshot_wins. destruct u as [u|]; [|
          by rewrite <-Hview, last_snapshot_wins].
        rewrite !entry_for_upsert, <-Hview, last_snapshot_wins.
        destruct (decide (i = id u)) as [->|Hi]; [|done].
        rewrite last_with_id_other; [done|].
        intros m Hm. apply Hids; apply elem_of_app; [left | right].
        -- by apply Hreq.
        -- left.
    + split; [by intros m ?%elem_of_nil|].
      intros i. rewrite app_nil_r. simpl. apply Hview.
Qed.

(** The updates of the model's stream wait for the next animation frame,
    those of the user's stream do not.  When no id of the one stream occurs
    in the other, then once the frame has come every id has the entry it
    would have had with the snapshots applied in the order they were
    delivered.  The order of the entries can differ: a model snapshot
    delivered before a user snapshot is entered after it. *)
Theorem deferred_bot_updates arrivals :
  ((∀ b u, BotMessage (Some b) ∈ arrivals → UserMessage (Some u) ∈ arrivals →
           id b ≠ id u) →
   ∀ i, entry_for i (messages (run (arrivals ++ [AnimationFrame]) initial))
        = entry_for i (apply_all (delivered arrivals) []))
  ∧ (∀ b u, id b ≠ id u →
       messages (run [BotMessage (Some b); UserMessage (Some u); AnimationFrame]
                   initial)
       = [Some u; Some b]
       ∧ apply_all (delivered [BotMessage (Some b); UserMessage (Some u)]) []
         = [Some b; Some u]).
Proof.
  split.
  - intros Hids i. rewrite session_run_app. simpl.
    by destruct (pending_view arrivals Hids) as [_ ->].
  - intros b u Hne.
    assert (∀ x, ¬ has_id x []) as Hnil
      by (intros x (k & e & Hk & _); by destruct k).
    assert (∀ x y : Message, id x ≠ id y → ¬ has_id x [Some y]) as Hone.
    { intros x y Hxy (k & e & Hk & He).
      destruct k as [|[|k]]; simpl in Hk; [|done..]. injection Hk as <-. done. }
    split; simpl.
    + rewrite (updater_absent u []) by done. simpl.
      by rewrite (updater_absent b [Some u]) by by apply Hone.
    + rewrite (updater_absent b []) by done. simpl.
      by rewrite (updater_absent u [Some b]) by by apply Hone.
Qed.

(** A model snapshot is updated while the user speaks; a frame comes last. *)
Lemma deferred_bot_updates_witness :
  entry_for "id2"
    (messages
       (run ([ BotMessage (Some Samples.msgB1); UserMessage (Some Samples.msgA1);
               AnimationFrame; UserMessage (Some Samples.msgA2) ]
             ++ [AnimationFrame]) initial))
  = Some Samples.msgB1.
Proof.
  refine (proj1 (deferred_bot_updates
                   [ BotMessage (Some Samples.msgB1);
                     UserMessage (Some Samples.msgA1);
                     AnimationFrame; UserMessage (Some Samples.msgA2) ]) _ "id2").
  intros b u Hb Hu.
  assert (b = Samples.msgB1) as ->.
  { rewrite !elem_of_cons, elem_of_nil in Hb.
    destruct Hb as [Hb|[Hb|[Hb|[Hb|[]]]]]; by simplify_eq. }
  rewrite !elem_of_cons, elem_of_nil in Hu.
  destruct Hu as [Hu|[Hu|[Hu|[Hu|[]]]]]; simplify_eq; by vm_compute.
Defined.

End session.

(** ** More on the views *)

Section views_more.
Implicit Types (message : MessageType) (i : string) (ps more : list Part).

Lemma append_assoc (s1 s2 s3 : string) :
  (s1 +:+ s2) +:+ s3 = s1 +:+ (s2 +:+ s3).
Proof.
  induction s1 as [|ch s1 IH]; [done|].
  change (String ch ((s1 +:+ s2) +:+ s3) = String ch (s1 +:+ s2 +:+ s3)).
  by f_equal.
Qed.

Lemma append_not_empty (s1 s2 : string) : s1 ≠ "" → s1 +:+ s2 ≠ "".
Proof. by destruct s1. Qed.

Lemma texts_in_order_app ps more :
  texts_in_order (ps ++ more) = texts_in_order ps +:+ texts_in_order more.
Proof.
  induction ps as [|p ps IH]; [done|].
  cbn [app texts_in_order]. rewrite IH.
  destruct (text p); [by rewrite append_assoc | done].
Qed.

(** Once a model turn shows a text, parts that arrive after its own only
    add to the end of it: the text of the longer turn is the text shown
    before followed by the texts of the new parts, and it is still shown. *)
Theorem model_text_grows i ps more (b : TextBubble) :
  textComponent (Some {| id := i; payload := serverContent (SCModelTurn (Some ps)) |})
  = Some b →
  tb_loading b = false →
  textComponent
    (Some {| id := i; payload := serverContent (SCModelTurn (Some (ps ++ more))) |})
  = Some {| tb_key := i; tb_placement := placement_start; tb_loading := false;
            tb_content := tb_content b +:+ texts_in_order more |}.
Proof.
  unfold textComponent. rewrite !join_texts_in_order, texts_in_order_app.
  destruct ps as [|p ps]; [by intros [= <-]|].
  simpl bool_decide. cbn [orb].
  destruct (truthy (texts_in_order (p :: ps))) eqn:Ht; [|done].
  intros [= <-] _. cbn [tb_content].
  apply truthy_spec in Ht.
  by rewrite (proj2 (truthy_spec _) (append_not_empty _ _ Ht)).
Qed.

Lemma model_text_grows_witness :
  textComponent
    (Some {| id := "id2";
             payload := serverContent
               (SCModelTurn (Some ([Samples.text_part "hi"]
                                   ++ [Samples.text_part " there"]))) |})
  = Some {| tb_key := "id2"; tb_placement := placement_start; tb_loading := false;
            tb_content := "hi there" |}.
Proof.
  apply (model_text_grows "id2" [Samples.text_part "hi"]
           [Samples.text_part " there"]
           {| tb_key := "id2"; tb_placement := placement_start;
              tb_loading := false; tb_content := "hi" |});
    reflexivity.
Defined.

(** A video bubble comes from a realtime input only, which has no text
    bubble; it stands on the model's side; its frames are not empty and each
    is the data URL of a chunk with data. *)
Theorem video_bubble message (b : VideoBubble) :
  videoComponent message = Some b →
  isRealtimeInputMessage message = true
  ∧ textComponent message = None
  ∧ vb_placement b = placement_start
  ∧ vb_images b ≠ []
  ∧ Forall (λ img, ∃ d, d ≠ "" ∧ img = "data:image/jpeg;base64, " +:+ d)
      (vb_images b).
Proof.
  unfold videoComponent.
  destruct message as [[i [chunks|turns tc|content]]|]; simpl; try done.
  case_bool_decide as Hlen; [|done]. intros [= <-]. simpl.
  split; [done|]. split; [done|]. split; [done|]. split.
  - intros Hnil. by rewrite Hnil in Hlen.
  - apply Forall_fmap, Forall_forall. intros c [[_ Hd] _]%list_elem_of_filter.
    simpl. by exists (data c).
Qed.

Lemma video_bubble_witness :
  vb_placement
    {| vb_key := "video-id5"; vb_placement := placement_start;
       vb_images := ["data:image/jpeg;base64, AAAA"] |}
  = placement_start.
Proof.
  refine (proj1 (proj2 (proj2 (video_bubble
    (Some {| id := "id5";
             payload := realtimeInput
               [ {| mimeType := "image/jpeg"; data := "AAAA" |} ] |}) _ _)))).
  reflexivity.
Defined.

(** An audio bubble never comes from a client message: it comes from a
    realtime input or from a model turn, and stands on the model's side in
    both cases. *)
Theorem audio_bubble message (b : AudioBubble) :
  audioComponent message = Some b →
  isClientMessage message = false
  ∧ ab_placement b = placement_start
  ∧ (isRealtimeInputMessage message = true
     ∨ ∃ i ps, message
               = Some {| id := i; payload := serverContent (SCModelTurn (Some ps)) |}).
Proof.
  unfold audioComponent.
  destruct message as [[i [chunks|turns tc|[[ps|]|tc|]]]|]; simpl; try done.
  - case_bool_decide; [|done]. intros [= <-]. simpl. by eauto.
  - case_bool_decide; [|done]. intros [= <-]. simpl. by eauto 6.
Qed.

Lemma audio_bubble_witness :
  isClientMessage (Some Samples.model_audio) = false
  ∧ placement_start = placement_start
  ∧ (isRealtimeInputMessage (Some Samples.model_audio) = true
     ∨ ∃ i ps, Some Samples.model_audio
               = Some {| id := i; payload := serverContent (SCModelTurn (Some ps)) |}).
Proof.
  apply (audio_bubble (Some Samples.model_audio)
           {| ab_key := "audio-id4"; ab_placement := placement_start;
              ab_blob := pcmBufferToBlob [104; 101; 108; 108; 111]%Z 2400 |}).
  reflexivity.
Defined.

(** The frames of a realtime input are those of its chunks in order: when
    chunks are added at the end, the frames found before are the first of
    the frames found after, under the same key. *)
Theorem video_frames_grow i (chunks more : list GenerativeContentBlob)
    (b : VideoBubble) :
  videoComponent (Some {| id := i; payload := realtimeInput chunks |}) = Some b →
  ∃ b', videoComponent (Some {| id := i; payload := realtimeInput (chunks ++ more) |})
        = Some b'
        ∧ vb_key b' = vb_key b
        ∧ vb_images b `prefix_of` vb_images b'.
Proof.
  unfold videoComponent. simpl. rewrite filter_app, fmap_app.
  case_bool_decide as Hlen; [|done]. intros [= <-].
  rewrite bool_decide_eq_true_2 by (rewrite length_app; lia).
  eexists. split; [done|]. split; [done|]. by apply prefix_app_r.
Qed.

Lemma video_frames_grow_witness :
  ∃ b', videoComponent
          (Some {| id := "id5";
                   payload := realtimeInput
                     ([ {| mimeType := "image/jpeg"; data := "AAAA" |} ]
                      ++ [ {| mimeType := "audio/pcm;rate=16000"; data := "AAAA" |};
                           {| mimeType := "image/jpeg"; data := "AAAB" |} ]) |})
        = Some b'
        ∧ vb_key b' = "video-id5"
        ∧ ["data:image/jpeg;base64, AAAA"] `prefix_of` vb_images b'.
Proof.
  apply (video_frames_grow "id5"
           [ {| mimeType := "image/jpeg"; data := "AAAA" |} ] _
           {| vb_key := "video-id5"; vb_placement := placement_start;
              vb_images := ["data:image/jpeg;base64, AAAA"] |}).
  reflexivity.
Defined.

(** The audio of a realtime input is that of its chunks in order: when
    chunks are added at the end, the bytes found before are the first of the
    bytes found after, at the same rate. *)
Theorem audio_payload_grows i (chunks more : list GenerativeContentBlob)
    (b : AudioBubble) :
  audioComponent (Some {| id := i; payload := realtimeInput chunks |}) = Some b →
  ∃ b', audioComponent (Some {| id := i; payload := realtimeInput (chunks ++ more) |})
        = Some b'
        ∧ sampleRate (ab_blob b') = sampleRate (ab_blob b)
        ∧ pcm (ab_blob b) `prefix_of` pcm (ab_blob b').
Proof.
  unfold audioComponent. simpl. rewrite filter_app, fmap_app.
  case_bool_decide as Hlen; [|done]. intros [= <-].
  rewrite bool_decide_eq_true_2 by (rewrite length_app; lia).
  eexists. split; [done|]. split; [done|]. simpl.
  unfold base64sToArrayBuffer. rewrite fmap_app, concat_app. by apply prefix_app_r.
Qed.

Lemma audio_payload_grows_witness :
  ∃ b', audioComponent
          (Some {| id := "id3";
                   payload := realtimeInput
                     ([Samples.pcm_chunk Samples.chunk5]
                      ++ [Samples.pcm_chunk Samples.chunk10]) |})
        = Some b'
        ∧ sampleRate (ab_blob b') = 1600%Z
        ∧ [104; 101; 108; 108; 111]%Z `prefix_of` pcm (ab_blob b').
Proof.
  apply (audio_payload_grows "id3" [Samples.pcm_chunk Samples.chunk5] _
           {| ab_key := "audio-id3"; ab_placement := placement_start;
              ab_blob := pcmBufferToBlob [104; 101; 108; 108; 111]%Z 1600 |}).
  reflexivity.
Defined.

End views_more.

(** ** More on the video pipeline *)

Section video_more.
Import Pacing.
Implicit Types (s : VideoPlayer) (p : Pipeline) (e : Event).

Lemma shown_take (imgs : list string) k :
  k ≤ length imgs → (imgs !!.) <$> seq 0 k = Some <$> take k imgs.
Proof.
  intros Hk. apply list_eq. intros j. rewrite !list_lookup_fmap.
  destruct (decide (j < k)) as [Hj|Hj].
  - rewrite lookup_seq_lt, lookup_take_lt by done. simpl.
    destruct (lookup_lt_is_Some_2 imgs j) as [x ->]; [lia | done].
  - by rewrite lookup_seq_ge, lookup_take_ge by lia.
Qed.

Lemma run_effect_first imgs ival rate events :
  run (Effect imgs ival rate :: events) mounted
  = run events (useEffect imgs ival rate mounted).
Proof. done. Qed.

(** A clip of any number of frames, from a fresh player: each of the first
    [n] ticks shows the next frame and leaves the one timer registered, with
    frames left before the [n]-th tick and none after it; the tick after
    those stops the recorder and clears the timer; the stop event delivers
    the clip and nothing is under way any more. *)
Theorem clip_of_frames (imgs : list string) (ival rate : Z) :
  imgs ≠ [] →
  (∀ k, k ≤ length imgs →
     timers (run (Effect imgs ival rate :: replicate k (Tick 0)) mounted) = 1
     ∧ phase (run (Effect imgs ival rate :: replicate k (Tick 0)) mounted)
       = (if bool_decide (k < length imgs) then Encoding else Draining)
     ∧ shown <$> pipelines
                   (run (Effect imgs ival rate :: replicate k (Tick 0)) mounted)
                 !! 0
       = Some (Some <$> take k imgs))
  ∧ phase (run (Effect imgs ival rate
                  :: replicate (S (length imgs)) (Tick 0)) mounted)
    = Finalizing
  ∧ timers (run (Effect imgs ival rate
                   :: replicate (S (length imgs)) (Tick 0)) mounted)
    = 0
  ∧ phase (run (Effect imgs ival rate
                  :: replicate (S (length imgs)) (Tick 0) ++ [OnStop 0]) mounted)
    = Complete
  ∧ video (run (Effect imgs ival rate
                  :: replicate (S (length imgs)) (Tick 0) ++ [OnStop 0]) mounted)
    = Some 0
  ∧ live_count (run (Effect imgs ival rate
                       :: replicate (S (length imgs)) (Tick 0) ++ [OnStop 0])
                  mounted)
    = 0.
Proof.
  intros Himgs.
  assert (0 < length imgs) as Hlen by (destruct imgs; [done | simpl; lia]).
  split.
  { intros k Hk. rewrite run_effect_first, ticks_show_frames by done.
    split; [done|]. split; [done|]. simpl. by rewrite shown_take. }
  rewrite !run_effect_first, run_app, last_tick_stops by done.
  done.
Qed.

Lemma clip_of_frames_witness :
  phase (run (Effect Samples.frames4 2000 10 :: replicate 5 (Tick 0)) mounted)
  = Finalizing.
Proof.
  refine (proj1 (proj2 (clip_of_frames Samples.frames4 2000 10 _))).
  discriminate.
Defined.

(** A player that is never given a frame never starts anything: no timer,
    no recorder, no poster, whatever else happens. *)
Theorem nothing_starts_without_frames (events : list Event) :
  (∀ imgs ival rate, Effect imgs ival rate ∈ events → imgs = []) →
  run events mounted = mounted.
Proof.
  induction events as [|e events IH]; intros Hev; [done|].
  change (run (e :: events) mounted) with (run events (step mounted e)).
  assert (step mounted e = mounted) as ->.
  { destruct e as [imgs ival rate|k|k]; [|done..].
    rewrite (Hev imgs ival rate); [done | left]. }
  apply IH. intros imgs ival rate Hin. eapply Hev. by right.
Qed.

Lemma nothing_starts_without_frames_witness :
  run [Effect [] 2000 10; Tick 0; OnStop 0; Effect [] 2000 10] mounted = mounted.
Proof.
  apply nothing_starts_without_frames. intros imgs ival rate Hin.
  rewrite !elem_of_cons, elem_of_nil in Hin.
  destruct Hin as [Hin|[Hin|[Hin|[Hin|[]]]]]; by simplify_eq.
Defined.

(** *** The cursor *)

Lemma paced_interval_callback p :
  timer p = true → paced p → paced (interval_callback p).
Proof.
  intros Ht (Himgs & Hshown & Hon & _). specialize (Hon Ht).
  unfold paced, interval_callback. cbn -[seq].
  split; [done|]. split; [by rewrite Hshown, seq_S, fmap_app|].
  case_bool_decide; split; intros; (lia || congruence).
Qed.

Lemma paced_step s e :
  Forall paced (pipelines s) → Forall paced (pipelines (step s e)).
Proof.
  intros Hall. destruct e as [imgs ival rate|k|k]; simpl.
  - unfold useEffect. destruct (canvasRef s); [|done].
    case_bool_decide as Hlen; [|done]. destruct (negb _); [|done]. simpl.
    apply Forall_app. split; [done|]. constructor; [|done].
    split; [cbn; intros ->; simpl in Hlen; lia|].
    split; [done|]. split; simpl; [lia | done].
  - unfold tick. destruct (pipelines s !! k) as [p|] eqn:Hp; [|done].
    destruct (timer p) eqn:Ht; [|done]. simpl.
    apply Forall_insert; [done|]. apply paced_interval_callback; [done|].
    by eapply Forall_lookup_1.
  - unfold onstop. destruct (pipelines s !! k) as [p|] eqn:Hp; [|done].
    case_decide; [|done]. simpl. apply Forall_insert; [done|].
    exact (Forall_lookup_1 paced _ _ _ Hall Hp).
Qed.

(** In every pipeline a player ever holds, the frames shown so far are the
    frames before the cursor, each once and in order; the cursor is within
    the frames while the timer is registered and exactly one past the end
    once it is cleared, so a single read past the end is all there is. *)
Theorem clips_are_paced (events : list Event) :
  Forall (λ p, paced p
               ∧ length (shown p) = currentImageIndex p
               ∧ currentImageIndex p ≤ S (length (images p)))
    (pipelines (run events mounted)).
Proof.
  assert (Forall paced (pipelines (run events mounted))) as Hall.
  { assert (∀ s, Forall paced (pipelines s) →
                 Forall paced (pipelines (run events s))) as Hrun.
    { induction events as [|e events IH]; intros s Hs; [done|].
      apply IH, paced_step, Hs. }
    apply Hrun. constructor. }
  eapply Forall_impl; [exact Hall|]. intros p Hp. split; [done|].
  destruct Hp as (_ & Hshown & Hon & Hoff).
  split; [by rewrite Hshown, length_fmap, length_seq|].
  destruct (timer p); [specialize (Hon eq_refl) | specialize (Hoff eq_refl)]; lia.
Qed.

(** *** What is displayed *)

Lemma single_pipeline_elem_of s p :
  single_pipeline s → p ∈ pipelines s → live p = false ∨ under_way p.
Proof.
  unfold single_pipeline. destruct (recorderRef s) as [k|].
  - intros (before & q & -> & _ & Hdead & Hq) [Hp|Hp]%elem_of_app.
    + left. rewrite Forall_forall in Hdead. by apply Hdead.
    + right. by apply list_elem_of_singleton in Hp as ->.
  - intros Hdead Hp. left. rewrite Forall_forall in Hdead. by apply Hdead.
Qed.

Lemma displayed_step s e :
  single_pipeline s → displayed s → displayed (step s e).
Proof.
  intros Hone (Hposter & Hvideo & Himgs).
  destruct e as [imgs ival rate|k|k]; simpl.
  - unfold useEffect. destruct (canvasRef s); [|done].
    case_bool_decide as Hlen; [|done]. destruct (negb _); [|done].
    cbn [andb]. split; [|split]; cbn [poster pipelines video with_pipelines].
    + rewrite fmap_app, list_fmap_singleton, last_snoc. simpl.
      by rewrite head_lookup.
    + intros j Hj. destruct (pipelines s !! j) as [p|] eqn:Hp.
      * rewrite (lookup_app_l_Some _ _ _ _ Hp). specialize (Hvideo j Hj).
        by rewrite Hp in Hvideo.
      * specialize (Hvideo j Hj). by rewrite Hp in Hvideo.
    + apply Forall_app. split; [done|]. constructor; [|done].
      simpl. intros ->. simpl in Hlen. lia.
  - unfold tick. destruct (pipelines s !! k) as [p|] eqn:Hp; [|done].
    destruct (timer p) eqn:Ht; [|done].
    split; [|split]; cbn [poster pipelines video with_pipelines].
    + rewrite list_fmap_insert. simpl. rewrite list_insert_id; [done|].
      by rewrite list_lookup_fmap, Hp.
    + intros j Hj. specialize (Hvideo j Hj).
      destruct (decide (k = j)) as [->|Hkj]; [|by rewrite list_lookup_insert_ne].
      rewrite Hp in Hvideo. simpl in Hvideo. injection Hvideo as Hrec.
      destruct (single_pipeline_elem_of s p Hone) as [Hl|[[_ Hr]|[Hr _]]];
        [by eapply list_elem_of_lookup_2 | | congruence..].
      apply live_false in Hl as [? _]. congruence.
    + apply Forall_insert; [done|]. simpl. by eapply (Forall_lookup_1 _ _ _ _ Himgs).
  - unfold onstop. destruct (pipelines s !! k) as [p|] eqn:Hp; [|done].
    case_decide as Hrec; [|done].
    split; [|split]; cbn [poster pipelines video with_pipelines].
    + rewrite list_fmap_insert. simpl. rewrite list_insert_id; [done|].
      by rewrite list_lookup_fmap, Hp.
    + intros j [= <-]. rewrite list_lookup_insert_eq; [done|].
      by eapply lookup_lt_Some.
    + apply Forall_insert; [done|]. simpl. by eapply (Forall_lookup_1 _ _ _ _ Himgs).
Qed.

Lemma displayed_run events s :
  single_pipeline s → displayed s → displayed (run events s).
Proof.
  revert s. induction events as [|e events IH]; intros s Hone Hs; [done|].
  apply IH; [by apply single_pipeline_step | by apply displayed_step].
Qed.

Lemma pipelines_step_length s e :
  length (pipelines s) ≤ length (pipelines (step s e)).
Proof.
  destruct e as [imgs ival rate|k|k]; simpl.
  - unfold useEffect. destruct (_ && _); simpl; [|done].
    rewrite length_app. lia.
  - unfold tick. destruct (pipelines s !! k) as [p|]; [|done].
    destruct (timer p); simpl; [|done]. by rewrite length_insert.
  - unfold onstop. destruct (pipelines s !! k) as [p|]; [|done].
    case_decide; simpl; [|done]. by rewrite length_insert.
Qed.

Lemma first_frames_step s e :
  (∀ imgs ival rate, e = Effect imgs ival rate → head imgs ≠ Some "") →
  Forall (λ p, head (images p) ≠ Some "") (pipelines s) →
  Forall (λ p, head (images p) ≠ Some "") (pipelines (step s e)).
Proof.
  intros He Hall. destruct e as [imgs ival rate|k|k]; simpl.
  - unfold useEffect. destruct (_ && _); [|done]. simpl.
    apply Forall_app. split; [done|]. constructor; [|done].
    simpl. by eapply He.
  - unfold tick. destruct (pipelines s !! k) as [p|] eqn:Hp; [|done].
    destruct (timer p); [|done]. simpl. apply Forall_insert; [done|].
    exact (Forall_lookup_1 _ _ _ _ Hall Hp).
  - unfold onstop. destruct (pipelines s !! k) as [p|] eqn:Hp; [|done].
    case_decide; [|done]. simpl. apply Forall_insert; [done|].
    exact (Forall_lookup_1 _ _ _ _ Hall Hp).
Qed.

Lemma first_frames_run events s :
  (∀ imgs ival rate, Effect imgs ival rate ∈ events → head imgs ≠ Some "") →
  Forall (λ p, head (images p) ≠ Some "") (pipelines s) →
  Forall (λ p, head (images p) ≠ Some "") (pipelines (run events s)).
Proof.
  revert s. induction events as [|e events IH]; intros s Hev Hs; [done|].
  apply IH.
  - intros imgs ival rate Hin. eapply Hev. by right.
  - apply first_frames_step; [|done]. intros imgs ival rate ->.
    eapply Hev. left.
Qed.

Lemma renders_displayed s :
  displayed s →
  Forall (λ p, head (images p) ≠ Some "") (pipelines s) →
  renders s = bool_decide (pipelines s ≠ []).
Proof.
  intros (Hposter & Hvideo & Himgs) Hfirst. unfold renders. rewrite Hposter.
  destruct (last (pipelines s)) as [p|] eqn:Hlast.
  - rewrite fmap_last, Hlast. simpl.
    assert (pipelines s ≠ []) as Hne by (apply last_is_Some; by eexists).
    rewrite Forall_forall in Himgs. rewrite Forall_forall in Hfirst.
    pose proof (Himgs p (last_Some_elem_of _ _ Hlast)) as Hp.
    pose proof (Hfirst p (last_Some_elem_of _ _ Hlast)) as Hp'.
    destruct (images p) as [|img imgs]; [done|]. simpl in *.
    assert (truthy img = true) as -> by (apply truthy_spec; congruence).
    rewrite orb_true_r. symmetry. by apply bool_decide_eq_true_2.
  - apply last_None in Hlast. rewrite Hlast. simpl.
    destruct (video s) as [k|] eqn:Hk; [|done].
    specialize (Hvideo k eq_refl). by rewrite Hlast, lookup_nil in Hvideo.
Qed.

(** With no recorder in the ref, a player that has started a pipeline has
    had its clip. *)
Lemma clip_once_over_step s e :
  (recorderRef s = None → pipelines s ≠ [] → is_Some (video s)) →
  recorderRef (step s e) = None → pipelines (step s e) ≠ [] →
  is_Some (video (step s e)).
Proof.
  intros Hs. destruct e as [imgs ival rate|k|k]; simpl.
  - unfold useEffect. by destruct (_ && _).
  - unfold tick. destruct (pipelines s !! k) as [p|] eqn:Hp; [|done].
    destruct (timer p); [|done]. simpl. intros Href _. apply Hs; [done|].
    intros Hnil. by rewrite Hnil in Hp.
  - unfold onstop. destruct (pipelines s !! k) as [p|] eqn:Hp; [|done].
    case_decide; [|done]. simpl. by eexists.
Qed.

Lemma clip_once_over_run events s :
  (recorderRef s = None → pipelines s ≠ [] → is_Some (video s)) →
  recorderRef (run events s) = None → pipelines (run events s) ≠ [] →
  is_Some (video (run events s)).
Proof.
  revert s. induction events as [|e events IH]; intros s Hs; [done|].
  apply IH. by apply clip_once_over_step.
Qed.

Lemma renders_step s e :
  displayed s →
  (recorderRef s = None → pipelines s ≠ [] → is_Some (video s)) →
  renders s = true → renders (step s e) = true.
Proof.
  intros (Hposter & _ & _) Hover Hr. destruct e as [imgs ival rate|k|k]; simpl.
  - unfold useEffect.
    destruct (canvasRef s); [|done]. destruct (bool_decide (0 < _)); [|done].
    destruct (recorderRef s) as [r|] eqn:Href; [done|]. simpl.
    unfold renders. simpl.
    assert (is_Some (video s)) as Hv; [|by rewrite bool_decide_eq_true_2].
    unfold renders in Hr. apply orb_true_iff in Hr as [Hr|Hr].
    + by apply bool_decide_eq_true in Hr.
    + apply Hover; [done|]. intros Hnil. by rewrite Hposter, Hnil in Hr.
  - unfold tick. destruct (pipelines s !! k) as [p|]; [|done].
    by destruct (timer p).
  - unfold onstop. destruct (pipelines s !! k) as [p|]; [|done].
    by case_decide.
Qed.

(** Whatever has happened to a player since it was mounted: the poster is
    the first frame of the last pipeline started, and the clip, when there
    is one, is that of a recorder whose stop event was delivered.  Once the
    [video] element is rendered it stays rendered.  When no run of the effect
    was handed the empty string as first image (and [videoComponent] never
    hands one), the element is rendered exactly when a pipeline was ever
    started. *)
Theorem player_display (events : list Event) :
  displayed (run events mounted)
  ∧ (renders (run events mounted) = true →
     ∀ e, renders (step (run events mounted) e) = true)
  ∧ ((∀ imgs ival rate, Effect imgs ival rate ∈ events → head imgs ≠ Some "") →
     renders (run events mounted)
     = bool_decide (pipelines (run events mounted) ≠ [])).
Proof.
  assert (displayed mounted) as H0.
  { split; [done|]. split; [by intros k [=] | constructor]. }
  pose proof (displayed_run events _ single_pipeline_mounted H0) as Hd.
  split; [done|]. split.
  - intros Hr e. apply renders_step; [done | | done].
    by apply (clip_once_over_run events mounted).
  - intros Hev. apply renders_displayed; [done|].
    apply first_frames_run; [done | constructor].
Qed.

Lemma player_display_witness :
  renders (step (run [Effect Samples.frames4 2000 10] mounted) (Tick 0)) = true
  ∧ renders (run [Effect Samples.frames4 2000 10] mounted) = true.
Proof.
  destruct (player_display [Effect Samples.frames4 2000 10]) as (_ & H1 & H2).
  split; [by apply H1|].
  rewrite H2; [reflexivity|].
  intros imgs ival rate Hin. apply list_elem_of_singleton in Hin.
  by simplify_eq.
Defined.

End video_more.

(** ** The tool checkboxes *)

Section tools.
Import Tools.

(** A checkbox reads back what was last set on it; setting one leaves what
    the others read; boxes set one after the other can be set in either
    order, and of two settings of one box the later stands.  While the
    stored state is undefined, setting changes nothing and every box reads
    undefined. *)
Theorem checkbox_laws (box box' : Checkbox) (value value' : bool)
    (tools : option ToolsState) :
  checked box (onChange box value tools) = (λ _, value) <$> tools
  ∧ (box ≠ box' →
     checked box' (onChange box value tools) = checked box' tools)
  ∧ (box ≠ box' →
     onChange box value (onChange box' value' tools)
     = onChange box' value' (onChange box value tools))
  ∧ onChange box value' (onChange box value tools) = onChange box value' tools
  ∧ onChange box value None = None
  ∧ checked box None = None.
Proof.
  destruct tools as [t|]; destruct box, box'; simpl; repeat split;
    done || (intros Hne; by destruct Hne).
Qed.

Lemma checkbox_laws_witness :
  checked Grounding (onChange CodeExecution true (Some defaultValue)) = Some false
  ∧ onChange CodeExecution true (onChange Grounding true (Some defaultValue))
    = onChange Grounding true (onChange CodeExecution true (Some defaultValue)).
Proof.
  destruct (checkbox_laws CodeExecution Grounding true true (Some defaultValue))
    as (_ & H1 & H2 & _).
  split; [exact (H1 ltac:(discriminate)) | exact (H2 ltac:(discriminate))].
Defined.

End tools.

(** ** The text bubble *)

Section text_bubble_facts.
Implicit Types (message : MessageType) (b : TextBubble).

(** A text bubble carries the id of its message as key and stands on the
    side of its sender (the user's for a client message, the model's
    otherwise).  It is either the loading indicator of a model turn without
    parts, with an empty text, or a text that is not empty: an empty text is
    never shown as such. *)
Theorem text_bubble message b :
  textComponent message = Some b →
  Some (tb_key b) = opt_id message
  ∧ tb_placement b = bubble_placement message
  ∧ (tb_loading b = true →
     tb_content b = ""
     ∧ ∃ i, message
            = Some {| id := i; payload := serverContent (SCModelTurn (Some [])) |})
  ∧ (tb_loading b = false → tb_content b ≠ "").
Proof.
  unfold textComponent, bubble_placement.
  destruct message as [[i [chunks|turns tc|[[ps|]|tc|]]]|]; simpl; try done.
  - destruct turns as [|turn turns]; simpl; [done|].
    destruct (truthy _) eqn:Ht; [|done]. intros [= <-]. simpl.
    apply truthy_spec in Ht. by repeat split.
  - destruct ps as [|p ps]; simpl.
    + intros [= <-]. simpl. repeat split; by eauto.
    + destruct (truthy _) eqn:Ht; [|done]. intros [= <-]. simpl.
      apply truthy_spec in Ht. by repeat split.
Qed.

Lemma text_bubble_witness :
  Some "id1" = opt_id (Some Samples.msgA2)
  ∧ placement_end = bubble_placement (Some Samples.msgA2).
Proof.
  destruct (text_bubble (Some Samples.msgA2)
              {| tb_key := "id1"; tb_placement := placement_end;
                 tb_loading := false; tb_content := "hello" |} eq_refl)
    as (Hkey & Hside & _).
  by split.
Defined.

End text_bubble_facts.

(** ** The keys of the message list *)

Section page_keys.
Import Session.

Lemma apply_all_no_null (inputs t : list MessageType) :
  None ∉ t → None ∉ apply_all inputs t.
Proof.
  intros Ht Hin. apply (list_elem_of_fmap_2 opt_id) in Hin.
  rewrite apply_all_ids in Hin. apply elem_of_app in Hin as [Hin|Hin].
  - apply list_elem_of_fmap in Hin as ([m|] & Hm & Hin); [done | by apply Ht].
  - by apply list_elem_of_fmap in Hin as (? & ? & _).
Qed.

Lemma opt_id_no_null (t : list MessageType) :
  None ∉ t → opt_id <$> t = Some <$> input_ids t.
Proof.
  induction t as [|[c|] t IH]; intros Ht; [done| |].
  - rewrite fmap_cons, IH; [done|]. intros Hin. apply Ht. by right.
  - destruct Ht. left.
Qed.

Lemma page_messages_step (s : LivePage) (a : Arrival) :
  (None ∉ messages s) ∧ NoDup (input_ids (messages s)) →
  (None ∉ messages (step s a)) ∧ NoDup (input_ids (messages (step s a))).
Proof.
  intros [Hnull Hnd]. destruct a as [[b|]|u|]; simpl; try done.
  - split.
    + by apply (apply_all_no_null [u]).
    + by apply (unique_ids_kept [u]).
  - split; [by apply apply_all_no_null | by apply unique_ids_kept].
Qed.

(** In every state of the page, whatever was delivered and whenever the
    frames came, no entry of the message list is null and no two entries
    share an id: the keys given to the list items are defined and distinct. *)
Theorem page_keys_unique (arrivals : list Arrival) :
  (None ∉ messages (run arrivals initial))
  ∧ NoDup (opt_id <$> messages (run arrivals initial)).
Proof.
  assert ((None ∉ messages (run arrivals initial))
          ∧ NoDup (input_ids (messages (run arrivals initial)))) as [Hnull Hnd].
  { assert (∀ s, (None ∉ messages s) ∧ NoDup (input_ids (messages s)) →
                 (None ∉ messages (run arrivals s))
                 ∧ NoDup (input_ids (messages (run arrivals s)))) as Hrun.
    { induction arrivals as [|a arrivals IH]; intros s Hs; [done|].
      apply IH, page_messages_step, Hs. }
    apply Hrun. split; [apply not_elem_of_nil | constructor]. }
  split; [done|]. rewrite opt_id_no_null by done.
  by apply (NoDup_fmap_2 _).
Qed.

End page_keys.

(** ** Starting over *)

Section restart.
Implicit Types (s : VideoPlayer).

Lemma video_step_keeps s (e : Event) :
  (∀ k, e ≠ OnStop k) → video (step s e) = video s.
Proof.
  destruct e as [imgs ival rate|k|k]; simpl; intros He.
  - unfold useEffect. by destruct (_ && _).
  - unfold tick. destruct (pipelines s !! k) as [p|]; [|done].
    by destruct (timer p).
  - by destruct (He k).
Qed.

(** When nothing is under way (no clip yet, or the last one delivered), a
    run of the effect with frames starts a pipeline over all of them, from
    the first: the poster becomes the first of the new frames at once, while
    the clip shown stays the one it was, and stays so until a stop event. *)
Theorem restart_from_first_frame (events : list Event) (imgs : list string)
    (ival rate : Z) :
  live_count (run events mounted) = 0 →
  imgs ≠ [] →
  pipelines (step (run events mounted) (Effect imgs ival rate))
  = pipelines (run events mounted)
    ++ [ {| images := imgs; interval := ival; frameRate := rate;
            recorder := rec_recording; timer := true;
            currentImageIndex := 0; shown := [] |} ]
  ∧ recorderRef (step (run events mounted) (Effect imgs ival rate))
    = Some (length (pipelines (run events mounted)))
  ∧ poster (step (run events mounted) (Effect imgs ival rate)) = head imgs
  ∧ video (step (run events mounted) (Effect imgs ival rate))
    = video (run events mounted)
  ∧ ∀ e, (∀ k, e ≠ OnStop k) →
         video (step (step (run events mounted) (Effect imgs ival rate)) e)
         = video (run events mounted).
Proof.
  intros Hnone Himgs.
  pose proof (single_pipeline_run events _ single_pipeline_mounted) as Hinv.
  pose proof (canvasRef_run events mounted) as Hcanvas. simpl in Hcanvas.
  destruct (single_pipeline_counts _ Hinv) as (Hlive & _).
  assert (recorderRef (run events mounted) = None) as Href.
  { destruct (recorderRef (run events mounted)); [|done].
    rewrite Hnone in Hlive. discriminate Hlive. }
  assert (step (run events mounted) (Effect imgs ival rate)
          = {| canvasRef := true;
               recorderRef := Some (length (pipelines (run events mounted)));
               video := video (run events mounted);
               poster := imgs !! 0;
               pipelines := pipelines (run events mounted)
                 ++ [ {| images := imgs; interval := ival; frameRate := rate;
                         recorder := rec_recording; timer := true;
                         currentImageIndex := 0; shown := [] |} ] |}) as Hstep.
  { simpl. unfold useEffect. rewrite Hcanvas, Href.
    rewrite bool_decide_eq_true_2 by (destruct imgs; [done | simpl; lia]).
    done. }
  split; [by rewrite Hstep|]. split; [by rewrite Hstep|].
  split; [by rewrite Hstep, head_lookup|]. split; [by rewrite Hstep|].
  intros e He. rewrite video_step_keeps by done. by rewrite Hstep.
Qed.

(** A second clip after a first of four frames was delivered. *)
Lemma restart_from_first_frame_witness :
  poster (step (run (Effect Samples.frames4 2000 10
                       :: replicate 5 (Tick 0) ++ [OnStop 0]) mounted)
            (Effect ["data:image/jpeg;base64, BBBB"] 2000 10))
  = Some "data:image/jpeg;base64, BBBB"
  ∧ video (step (run (Effect Samples.frames4 2000 10
                        :: replicate 5 (Tick 0) ++ [OnStop 0]) mounted)
             (Effect ["data:image/jpeg;base64, BBBB"] 2000 10))
    = Some 0.
Proof.
  destruct (restart_from_first_frame
              (Effect Samples.frames4 2000 10 :: replicate 5 (Tick 0) ++ [OnStop 0])
              ["data:image/jpeg;base64, BBBB"] 2000 10)
    as (_ & _ & Hposter & Hvideo & _); [reflexivity | discriminate |].
  by split.
Defined.

End restart.

(** ** One message id, several players *)

Section slot.
Import Slot.
Implicit Types (slot : VideoSlot) (events : list SlotEvent).

(** C8, as stated, fails: the guard is kept by the player, not by the
    message id.  A snapshot with frames starts a pipeline; a snapshot of the
    same id without frames removes the player, whose timer and recorder go
    on; the next snapshot with frames mounts a new player, whose guard
    passes: two timers and two recorder sessions for the one id. *)
Lemma second_pipeline_after_remount :
  timers_total
    (run [Render (Some framed); Render (Some frameless); Render (Some framed)]
       empty) = 2
  ∧ sessions_total
      (run [Render (Some framed); Render (Some frameless); Render (Some framed)]
         empty) = 2
  ∧ live_total
      (run [Render (Some framed); Render (Some frameless); Render (Some framed)]
         empty) = 2.
Proof. repeat split. Qed.

Lemma slot_single_step slot (ev : SlotEvent) :
  (∀ message, ev = Render message → videoComponent message ≠ None) →
  removed slot = [] ∧ (∀ player, inTree slot = Some player → single_pipeline player) →
  removed (step slot ev) = []
  ∧ (∀ player, inTree (step slot ev) = Some player → single_pipeline player).
Proof.
  intros Hev [Hrem Hone]. destruct ev as [message|w k|w k]; simpl.
  - unfold render. destruct (videoComponent message) as [b|] eqn:Hb;
      [|by destruct (Hev message)].
    simpl. split; [done|]. intros player [= <-].
    apply single_pipeline_useEffect.
    destruct (inTree slot) as [p|]; simpl; [by apply Hone|].
    apply single_pipeline_mounted.
  - destruct w as [|j]; simpl.
    + split; [done|]. intros player Hp.
      destruct (inTree slot) as [p|]; simplify_eq/=.
      by apply single_pipeline_tick, Hone.
    + by rewrite Hrem.
  - destruct w as [|j]; simpl.
    + split; [done|]. intros player Hp.
      destruct (inTree slot) as [p|]; simplify_eq/=.
      by apply single_pipeline_onstop, Hone.
    + by rewrite Hrem.
Qed.

(** As long as every snapshot rendered for a message id carries a frame, its
    player is never removed and the id has at most one pipeline under way:
    at most one timer and one recorder session.  While one is under way,
    rendering a further snapshot with frames changes nothing. *)
Theorem one_pipeline_while_mounted events :
  (∀ message, Render message ∈ events → videoComponent message ≠ None) →
  removed (run events empty) = []
  ∧ live_total (run events empty) ≤ 1
  ∧ timers_total (run events empty) ≤ 1
  ∧ sessions_total (run events empty) ≤ 1
  ∧ (live_total (run events empty) = 1 →
     ∀ message, videoComponent message ≠ None →
       step (run events empty) (Render message) = run events empty).
Proof.
  intros Hev.
  assert (removed (run events empty) = []
          ∧ ∀ player, inTree (run events empty) = Some player →
                      single_pipeline player) as [Hrem Hone].
  { assert (∀ slot,
              removed slot = []
              ∧ (∀ player, inTree slot = Some player → single_pipeline player) →
              removed (run events slot) = []
              ∧ (∀ player, inTree (run events slot) = Some player →
                           single_pipeline player)) as Hrun.
    { induction events as [|ev events IH]; intros slot Hslot; [done|].
      apply IH.
      - intros message Hin. apply Hev. by right.
      - apply slot_single_step; [|done]. intros message ->. apply Hev. left. }
    apply Hrun. by split. }
  split; [done|]. unfold live_total, timers_total, sessions_total, players.
  rewrite Hrem, app_nil_r.
  destruct (run events empty) as [[player|] rest]; simpl in *.
  - destruct (single_pipeline_counts _ (Hone player eq_refl)) as (Hlive & Ht & Hs).
    split; [rewrite Hlive; case_match; lia|].
    split; [lia|]. split; [lia|].
    intros H1 message Hm. unfold render.
    destruct (videoComponent message) as [b|]; [|done]. simpl.
    unfold useEffect.
    destruct (recorderRef player) as [r|]; [|rewrite Hlive in H1; lia].
    rewrite (bool_decide_eq_true_2 (is_Some (Some r))) by by eexists.
    by rewrite andb_false_r.
  - split; [lia|]. split; [lia|]. split; [lia|]. intros; lia.
Qed.

(** Three snapshots with frames, a tick in between. *)
Lemma one_pipeline_while_mounted_witness :
  timers_total
    (run [Render (Some framed); TimerFires InTree 0; Render (Some framed)] empty)
  ≤ 1.
Proof.
  refine (proj1 (proj2 (proj2 (one_pipeline_while_mounted
    [Render (Some framed); TimerFires InTree 0; Render (Some framed)] _)))).
  intros message Hin. rewrite !elem_of_cons, elem_of_nil in Hin.
  destruct Hin as [Hin|[Hin|[Hin|[]]]]; by simplify_eq.
Defined.

End slot.
